(** * optimize_images.py: a shallow embedding and its properties

    The script walks a directory of raster images, resizes each one so
    that its longer side is 3333 pixels, optionally sends it through the
    TinyPNG service, and writes JPEG, WebP and (when the plugin is there)
    AVIF renditions.  Python values are embedded as follows:

    - [str] is a list of Unicode code points ([N]);
    - [float] is IEEE 754 binary64, through the Standard Library's
      executable specification [SpecFloat];
    - a [Path] is the list of its components, the file system a finite
      map from paths to nodes;
    - statements that touch the file system or the two output streams are
      functions on a [World] that return either a value or the exception
      they raise. *)

From Stdlib Require Import ZArith NArith List Lia.
From Stdlib Require Import Floats.SpecFloat Strings.String Strings.Ascii.
From stdpp Require Import base gmap list strings.
Import ListNotations.

(** ** Python strings *)

Module Py.

Definition char := N.
Definition str := list char.

(** A source literal, one code point per ASCII character. *)
Definition lit (s : string) : str := map N_of_ascii (list_ascii_of_string s).

Definition HYPHEN : char := 45%N.
Definition SPACE : char := 32%N.
Definition UNDERSCORE : char := 95%N.
Definition DOT : char := 46%N.
Definition SLASH : char := 47%N.

(** [s.replace(old, new)] where [old] and [new] are one character long. *)
Definition replace (old new : char) (s : str) : str :=
  map (fun c => if N.eqb c old then new else c) s.

(** [s.lstrip(c)], [s.rstrip(c)], [s.strip(c)] for a one-character set. *)
Fixpoint lstrip (c : char) (s : str) : str :=
  match s with
  | [] => []
  | x :: s' => if N.eqb x c then lstrip c s' else s
  end.

Fixpoint rstrip (c : char) (s : str) : str :=
  match s with
  | [] => []
  | x :: s' =>
      match rstrip c s' with
      | [] => if N.eqb x c then [] else [x]
      | r => x :: r
      end
  end.

Definition strip (c : char) (s : str) : str := rstrip c (lstrip c s).

(** [re.sub(r"[cls]+", repl, s)]: the scanner replaces every maximal run
    of characters of the class by one copy of [repl].  [in_run] records
    that the previous character already belonged to the current match. *)
Fixpoint re_sub_runs (cls : char -> bool) (repl : str) (in_run : bool) (s : str) : str :=
  match s with
  | [] => []
  | c :: s' =>
      if cls c
      then (if in_run then [] else repl) ++ re_sub_runs cls repl true s'
      else c :: re_sub_runs cls repl false s'
  end.

Definition re_sub (cls : char -> bool) (repl : str) (s : str) : str :=
  re_sub_runs cls repl false s.

(** The character class [[a-z0-9_]]. *)
Definition word_class (c : char) : bool :=
  ((97 <=? c) && (c <=? 122) || (48 <=? c) && (c <=? 57) || (c =? 95))%N.

Definition is_underscore (c : char) : bool := N.eqb c UNDERSCORE.

(** [s.rfind(".")]: the index of the last dot, if any. *)
Fixpoint rfind (c : char) (s : str) : option nat :=
  match s with
  | [] => None
  | x :: s' =>
      match rfind c s' with
      | Some i => Some (S i)
      | None => if N.eqb x c then Some 0 else None
      end
  end.

End Py.

Import Py.

(** ** unicodedata

    The Unicode character database is not part of the program.  Its three
    entry points are taken as an interface; [UnicodeLaws] records what the
    database guarantees on ASCII text. *)

Class UnicodeData := {
  normalize_NFKD : str -> str;
  combining : char -> N;
  lower : str -> str
}.

Definition is_ascii (c : char) : bool := (c <? 128)%N.

Definition ascii_lower (c : char) : char :=
  if ((65 <=? c) && (c <=? 90))%N then (c + 32)%N else c.

Class UnicodeLaws (U : UnicodeData) : Prop := {
  nfkd_ascii : forall s, forallb is_ascii s = true -> normalize_NFKD s = s;
  combining_ascii : forall c, is_ascii c = true -> combining c = 0%N;
  lower_ascii : forall s, forallb is_ascii s = true -> lower s = map ascii_lower s
}.

(** The database on Latin-1 text (code points up to U+00FF): every
    decomposition there is a base character followed by at most one mark,
    so NFKD is the concatenation of the decompositions.  Characters
    beyond Latin-1 are left as they are; the instance is meant for
    Latin-1 text only. *)
Module Latin1.

Definition upper_decomposition : list (N * (N * N)) :=
  [ (0xC0, (65, 0x300)); (0xC1, (65, 0x301)); (0xC2, (65, 0x302));
    (0xC3, (65, 0x303)); (0xC4, (65, 0x308)); (0xC5, (65, 0x30A));
    (0xC7, (67, 0x327));
    (0xC8, (69, 0x300)); (0xC9, (69, 0x301)); (0xCA, (69, 0x302));
    (0xCB, (69, 0x308));
    (0xCC, (73, 0x300)); (0xCD, (73, 0x301)); (0xCE, (73, 0x302));
    (0xCF, (73, 0x308));
    (0xD1, (78, 0x303));
    (0xD2, (79, 0x300)); (0xD3, (79, 0x301)); (0xD4, (79, 0x302));
    (0xD5, (79, 0x303)); (0xD6, (79, 0x308));
    (0xD9, (85, 0x300)); (0xDA, (85, 0x301)); (0xDB, (85, 0x302));
    (0xDC, (85, 0x308)); (0xDD, (89, 0x301)) ]%N.

Definition other_decomposition : list (N * list N) :=
  [ (0xA0, [32]); (0xA8, [32; 0x308]); (0xAA, [97]); (0xAF, [32; 0x304]);
    (0xB2, [50]); (0xB3, [51]); (0xB4, [32; 0x301]); (0xB5, [0x3BC]);
    (0xB8, [32; 0x327]); (0xB9, [49]); (0xBA, [111]);
    (0xBC, [49; 0x2044; 52]); (0xBD, [49; 0x2044; 50]);
    (0xBE, [51; 0x2044; 52]); (0xFF, [121; 0x308]) ]%N.

Fixpoint assoc {A} (k : N) (l : list (N * A)) : option A :=
  match l with
  | [] => None
  | (k', v) :: l' => if N.eqb k k' then Some v else assoc k l'
  end.

Definition decompose (c : char) : str :=
  match assoc c upper_decomposition with
  | Some (b, m) => [b; m]
  | None =>
      match assoc (c - 32)%N upper_decomposition with
      | Some (b, m) => if (0xE0 <=? c)%N then [(b + 32)%N; m] else [c]
      | None =>
          match assoc c other_decomposition with
          | Some d => d
          | None => [c]
          end
      end
  end.

Definition nfkd (s : str) : str := flat_map decompose s.

Definition ccc (c : char) : N :=
  if (c =? 0x327)%N then 202%N
  else if existsb (N.eqb c) [0x300; 0x301; 0x302; 0x303; 0x304; 0x308; 0x30A]%N
       then 230%N else 0%N.

Definition lower_char (c : char) : char :=
  if ((65 <=? c) && (c <=? 90))%N then (c + 32)%N
  else if ((0xC0 <=? c) && (c <=? 0xDE) && negb (c =? 0xD7))%N then (c + 32)%N
  else c.

#[export] Instance unicodedata : UnicodeData := {|
  normalize_NFKD := nfkd;
  combining := ccc;
  lower := map lower_char
|}.

End Latin1.

(** ** sanitize_filename *)

Section Sanitize.
Context {U : UnicodeData}.

Definition sanitize_filename (stem : str) : str :=
  let stem := replace SPACE UNDERSCORE (replace HYPHEN UNDERSCORE stem) in
  let stem := normalize_NFKD stem in
  let stem := List.filter (fun c => N.eqb (combining c) 0) stem in
  let stem := lower stem in
  let stem := re_sub (fun c => negb (word_class c)) [] stem in
  let stem := strip UNDERSCORE (re_sub is_underscore (lit "_") stem) in
  match stem with
  | [] => lit "image"
  | _ => stem
  end.

(** The function in two halves: the Unicode steps up to the removal of
    foreign characters, and the tidying of underscores. *)
Definition to_words (x : str) : str :=
  re_sub (fun c => negb (word_class c)) []
    (lower
       (List.filter (fun c => N.eqb (combining c) 0)
          (normalize_NFKD
             (replace SPACE UNDERSCORE (replace HYPHEN UNDERSCORE x))))).

Definition tidy (s : str) : str :=
  strip UNDERSCORE (re_sub is_underscore (lit "_") s).

Definition or_image (s : str) : str :=
  match s with
  | [] => lit "image"
  | _ => s
  end.

(** No two underscores in a row; no underscore in front. *)
Fixpoint nodouble (s : str) : bool :=
  match s with
  | c :: s' =>
      match s' with
      | c' :: _ => negb (is_underscore c && is_underscore c') && nodouble s'
      | [] => true
      end
  | [] => true
  end.

Definition no_lead (s : str) : bool :=
  match s with
  | c :: _ => negb (is_underscore c)
  | [] => true
  end.

End Sanitize.

(** The reference definition, step by step as section 4.2 of the
    specification words it. *)
Module Reference.
Section Steps.
Context {U : UnicodeData}.

(** Step 1: hyphens and spaces become underscores. *)
Definition underscore_separators (s : str) : str :=
  map (fun c => if (N.eqb c HYPHEN || N.eqb c SPACE)%bool then UNDERSCORE else c) s.

(** Step 2: canonical decomposition, then combining marks are dropped. *)
Definition is_combining_mark (c : char) : bool := negb (N.eqb (combining c) 0).

Definition strip_accents (s : str) : str :=
  List.filter (fun c => negb (is_combining_mark c)) (normalize_NFKD s).

(** Step 4: only characters of [[a-z0-9_]] remain. *)
Definition keep_word_chars (s : str) : str := List.filter word_class s.

(** Step 5a: an underscore followed by another one is dropped, which
    leaves one of each run. *)
Fixpoint collapse_underscores (s : str) : str :=
  match s with
  | [] => []
  | c :: s' =>
      match s' with
      | c' :: _ =>
          if (is_underscore c && is_underscore c')%bool
          then collapse_underscores s'
          else c :: collapse_underscores s'
      | [] => [c]
      end
  end.

(** Step 5b: leading and trailing underscores are trimmed. *)
Definition trim_underscores (s : str) : str :=
  rev (lstrip UNDERSCORE (rev (lstrip UNDERSCORE s))).

(** Step 6: the fallback. *)
Definition or_image (s : str) : str :=
  if decide (s = []) then lit "image" else s.

Definition sanitize (s : str) : str :=
  or_image
    (trim_underscores
       (collapse_underscores
          (keep_word_chars (lower (strip_accents (underscore_separators s)))))).

End Steps.
End Reference.

(** ** Exceptions *)

Inductive exception :=
| FileNotFoundError
| FileExistsError
| IsADirectoryError
| NotADirectoryError
| UnidentifiedImageError
| ValueError
| ZeroDivisionError
| OverflowError
| RuntimeError (msg : string)
| TinifyError (msg : string).

Inductive result (A : Type) :=
| Ok (a : A)
| Raise (e : exception).
Arguments Ok {A} a.
Arguments Raise {A} e.

Definition rbind {A B} (r : result A) (k : A -> result B) : result B :=
  match r with
  | Ok a => k a
  | Raise e => Raise e
  end.

Notation "'let?' x ':=' r 'in' k" := (rbind r (fun x => k))
  (at level 10, x pattern, r at level 100, k at level 200).

(** ** Python floats (binary64) *)

Module Binary64.

Definition prec : Z := 53.
Definition emax : Z := 1024.
Definition float := spec_float.

(** [float(n)] for an [int]: round to nearest, ties to even; too large a
    value is an [OverflowError]. *)
Definition of_int (n : Z) : result float :=
  match binary_normalize prec emax n 0 false with
  | S754_infinity _ => Raise OverflowError
  | x => Ok x
  end.

(** [a / b] on two [int]s.  Image sizes are C ints, every one of which is
    a binary64 value, so the quotient of the converted operands is the
    correctly rounded quotient that Python returns. *)
Definition truediv (a b : Z) : result float :=
  if (b =? 0)%Z then Raise ZeroDivisionError
  else
    let? x := of_int a in
    let? y := of_int b in
    Ok (SFdiv prec emax x y).

(** [n * x] for an [int] [n] and a [float] [x]. *)
Definition int_mul (n : Z) (x : float) : result float :=
  let? y := of_int n in
  Ok (SFmul prec emax y x).

(** [int(x)]: truncation towards zero. *)
Definition to_int (x : float) : result Z :=
  match x with
  | S754_zero _ => Ok 0%Z
  | S754_finite s m e => Ok (cond_Zopp s (Z.shiftl (Zpos m) e))
  | S754_infinity _ => Raise OverflowError
  | S754_nan => Raise ValueError
  end.

End Binary64.

(** ** pathlib

    Pure path operations as CPython 3.8 to 3.13 define them; a path is
    the list of its components below the root. *)

Module Pathlib.

Definition Path := list str.

Definition name (p : Path) : str := List.last p [].
Definition parent (p : Path) : Path := List.removelast p.
Definition joinpath (p q : Path) : Path := p ++ q.

Definition is_empty {A} (s : list A) : bool :=
  match s with
  | [] => true
  | _ => false
  end.

(** The index of the dot that starts the suffix: [0 < i < len(name) - 1]. *)
Definition suffix_index (name : str) : option nat :=
  match rfind DOT name with
  | Some i => if ((0 <? i) && (i <? length name - 1))%nat then Some i else None
  | None => None
  end.

Definition suffix (p : Path) : str :=
  match suffix_index (name p) with
  | Some i => drop i (name p)
  | None => []
  end.

Definition stem (p : Path) : str :=
  match suffix_index (name p) with
  | Some i => take i (name p)
  | None => name p
  end.

Definition startswith (c : char) (s : str) : bool :=
  match s with
  | x :: _ => N.eqb x c
  | [] => false
  end.

Definition with_suffix (p : Path) (suffix' : str) : result Path :=
  if existsb (N.eqb SLASH) suffix' then Raise ValueError
  else if (negb (is_empty suffix') && negb (startswith DOT suffix')
           || bool_decide (suffix' = [DOT]))%bool then Raise ValueError
  else
    let name := name p in
    if is_empty name then Raise ValueError
    else
      let old_suffix := suffix p in
      let name :=
        if is_empty old_suffix then name ++ suffix'
        else take (length name - length old_suffix) name ++ suffix' in
      Ok (parent p ++ [name]).

Definition is_relative_to (p base : Path) : bool :=
  bool_decide (take (length base) p = base).

Definition relative_to (p base : Path) : result Path :=
  if is_relative_to p base then Ok (drop (length base) p) else Raise ValueError.

End Pathlib.

Import Pathlib.

(** ** PIL images *)

Module PIL.

(** Where the pixels of an image come from; the samples themselves are
    left to the codec library. *)
Inductive pixels :=
| Bitmap (id : N)
| Converted (mode : string) (p : pixels)
| Solid (r g b a : Z)
| AlphaComposite (dst src : pixels)
| Resampled (filter : string) (p : pixels).

Record Image := {
  mode : string;
  width : Z;
  height : Z;
  px : pixels
}.

Definition size (img : Image) : Z * Z := (width img, height img).

Definition convert (img : Image) (m : string) : Image :=
  {| mode := m; width := width img; height := height img;
     px := Converted m (px img) |}.

Definition new (m : string) (sz : Z * Z) (color : Z * Z * Z * Z) : Image :=
  let '(r, g, b, a) := color in
  {| mode := m; width := fst sz; height := snd sz; px := Solid r g b a |}.

(** [Image.alpha_composite]: both operands are RGBA and of one size. *)
Definition alpha_composite (im1 im2 : Image) : result Image :=
  if (String.eqb (mode im1) "RGBA" && String.eqb (mode im2) "RGBA"
      && (width im1 =? width im2)%Z && (height im1 =? height im2)%Z)%bool
  then Ok {| mode := "RGBA"; width := width im1; height := height im1;
             px := AlphaComposite (px im1) (px im2) |}
  else Raise ValueError.

Definition resize (img : Image) (sz : Z * Z) (filter : string) : Image :=
  {| mode := mode img; width := fst sz; height := snd sz;
     px := Resampled filter (px img) |}.

(** Keyword arguments of [Image.save]. *)
Record encoding := {
  format : string;
  quality : option Z;
  optimize : bool;
  method : option Z;
  dpi : option (Z * Z)
}.

End PIL.

Import PIL.

(** ** The world: file system and output streams *)

Inductive data :=
| Raster (enc : encoding) (img : Image)
| Junk.

Inductive node :=
| Dir
| File (d : data).

Inductive line :=
| OK (name stem : str) (orientation : string) (written : list str)
| ERR (src : Path) (e : exception)
| Text (s : string)
| TextPath (before : string) (p : Path) (after : string)
| Traceback (e : exception).

Record World := {
  fs : gmap Path node;
  stdout : list line;
  stderr : list line
}.

Definition M (A : Type) : Type := World -> result A * World.

Definition ret {A} (a : A) : M A := fun w => (Ok a, w).
Definition raise {A} (e : exception) : M A := fun w => (Raise e, w).
Definition lift {A} (r : result A) : M A := fun w => (r, w).

Definition bind {A B} (m : M A) (k : A -> M B) : M B :=
  fun w =>
    match m w with
    | (Ok a, w') => k a w'
    | (Raise e, w') => (Raise e, w')
    end.

Notation "'let*' x ':=' m 'in' k" := (bind m (fun x => k))
  (at level 10, x pattern, m at level 100, k at level 200).

(** [try: body / except Exception as e: handler(e)]. *)
Definition try_except {A} (body : M A) (handler : exception -> M A) : M A :=
  fun w =>
    match body w with
    | (Raise e, w') => handler e w'
    | r => r
    end.

Fixpoint for_each {A} (body : A -> M unit) (l : list A) : M unit :=
  match l with
  | [] => ret tt
  | x :: l' => let* _ := body x in for_each body l'
  end.

Definition print (l : line) : M unit :=
  fun w => (Ok tt, {| fs := fs w; stdout := stdout w ++ [l]; stderr := stderr w |}).

Definition eprint (l : line) : M unit :=
  fun w => (Ok tt, {| fs := fs w; stdout := stdout w; stderr := stderr w ++ [l] |}).

Definition set_fs (f : gmap Path node) (w : World) : World :=
  {| fs := f; stdout := stdout w; stderr := stderr w |}.

(** The root is always there. *)
Definition stat (w : World) (p : Path) : option node :=
  match p with
  | [] => Some Dir
  | _ => fs w !! p
  end.

Definition exists_ (p : Path) : M bool :=
  fun w => (Ok (bool_decide (is_Some (stat w p))), w).

Definition is_dir (w : World) (p : Path) : bool :=
  match stat w p with
  | Some Dir => true
  | _ => false
  end.

Definition is_file (w : World) (p : Path) : bool :=
  match stat w p with
  | Some (File _) => true
  | _ => false
  end.

(** [open(p, "rb").read()] *)
Definition read_file (p : Path) : M data :=
  fun w =>
    match stat w p with
    | Some (File d) => (Ok d, w)
    | Some Dir => (Raise IsADirectoryError, w)
    | None => (Raise FileNotFoundError, w)
    end.

(** [open(p, "wb").write(d)] *)
Definition write_file (p : Path) (d : data) : M unit :=
  fun w =>
    match stat w p with
    | Some Dir => (Raise IsADirectoryError, w)
    | _ =>
        match stat w (parent p) with
        | Some Dir => (Ok tt, set_fs (<[p := File d]> (fs w)) w)
        | Some (File _) => (Raise NotADirectoryError, w)
        | None => (Raise FileNotFoundError, w)
        end
    end.

(** [os.mkdir(p)] *)
Definition os_mkdir (p : Path) : M unit :=
  fun w =>
    match stat w p with
    | Some _ => (Raise FileExistsError, w)
    | None =>
        match stat w (parent p) with
        | Some Dir => (Ok tt, set_fs (<[p := Dir]> (fs w)) w)
        | Some (File _) => (Raise NotADirectoryError, w)
        | None => (Raise FileNotFoundError, w)
        end
    end.

(** [Path.mkdir(parents=False, exist_ok=True)] *)
Definition mkdir_exist_ok (p : Path) : M unit :=
  fun w =>
    match os_mkdir p w with
    | (Raise FileNotFoundError, w') => (Raise FileNotFoundError, w')
    | (Raise e, w') => if is_dir w' p then (Ok tt, w') else (Raise e, w')
    | r => r
    end.

(** [Path.mkdir(parents=True, exist_ok=True)].  The path is taken leaf
    first, so that the call on [self.parent] is on the tail. *)
Fixpoint mkdir_parents (rp : list str) : M unit :=
  fun w =>
    match os_mkdir (rev rp) w with
    | (Raise FileNotFoundError, w') =>
        match rp with
        | [] => (Raise FileNotFoundError, w')
        | _ :: rparent =>
            (let* _ := mkdir_parents rparent in mkdir_exist_ok (rev rp)) w'
        end
    | (Raise e, w') => if is_dir w' (rev rp) then (Ok tt, w') else (Raise e, w')
    | r => r
    end.

Definition mkdir (p : Path) : M unit := mkdir_parents (rev p).

(** [Path.unlink(missing_ok=...)] *)
Definition unlink (p : Path) (missing_ok : bool) : M unit :=
  fun w =>
    match stat w p with
    | Some (File _) => (Ok tt, set_fs (delete p (fs w)) w)
    | Some Dir => (Raise IsADirectoryError, w)
    | None => if missing_ok then (Ok tt, w) else (Raise FileNotFoundError, w)
    end.

(** [Image.open(p)] *)
Definition Image_open (p : Path) : M Image :=
  let* d := read_file p in
  match d with
  | Raster _ img => ret img
  | Junk => raise UnidentifiedImageError
  end.

(** [img.save(p, format=..., ...)] *)
Definition Image_save (img : Image) (p : Path) (enc : encoding) : M unit :=
  write_file p (Raster enc img).

(** ** The program *)

Definition TARGET_SIZE : Z := 3333.
Definition TARGET_DPI : Z * Z := (53, 53)%Z.

Definition is_landscape (img : Image) : bool := (width img >=? height img)%Z.

Definition resize_preserve_ratio (img : Image) (max_size : Z) : result Image :=
  let? img :=
    if existsb (String.eqb (mode img)) ["RGBA"; "LA"; "P"]%string then
      let img := convert img "RGBA" in
      let background := new "RGBA" (size img) (255, 255, 255, 255)%Z in
      let? img := alpha_composite background img in
      Ok (convert img "RGB")
    else Ok (convert img "RGB") in
  let '(w, h) := size img in
  let? (new_w, new_h) :=
    if (w >=? h)%Z then
      let? ratio := Binary64.truediv max_size w in
      let? scaled := Binary64.int_mul h ratio in
      let? new_h := Binary64.to_int scaled in
      Ok (max_size, new_h)
    else
      let? ratio := Binary64.truediv max_size h in
      let? scaled := Binary64.int_mul w ratio in
      let? new_w := Binary64.to_int scaled in
      Ok (new_w, max_size) in
  Ok (resize img (new_w, new_h) "LANCZOS").

Definition ensure_dir (p : Path) : M unit := mkdir p.

(** What the module finds when it is imported: the two optional
    libraries, the environment (after [load_dotenv]), the directory of the
    script, and the answer of the TinyPNG service to an upload. *)
Record Env := {
  AVIF_SUPPORTED : bool;
  TINIFY_AVAILABLE : bool;
  TINIFY_KEY : option str;
  script_dir : Path;
  tinify_service : str -> data -> result data
}.

(** Command-line arguments, paths already expanded and resolved. *)
Record Args := {
  input_dir : Path;
  out : Path;
  recursive : bool;
  no_rename : bool;
  tinypng : bool;
  arg_quality : Z;
  keep_structure : bool
}.

(** Truth value of [os.environ.get("TINIFY_KEY")]. *)
Definition key_set (key : option str) : bool :=
  match key with
  | Some (_ :: _) => true
  | _ => false
  end.

Definition exts : list str :=
  map lit [".png"; ".jpg"; ".jpeg"; ".webp"; ".tif"; ".tiff"; ".bmp"; ".gif"]%string.

Definition entries (w : World) : list Path := map fst (map_to_list (fs w)).

(** [d.glob("*")] and [d.rglob("*")], consumed at once. *)
Definition glob_star (d : Path) : M (list Path) :=
  fun w =>
    (Ok (if is_dir w d
         then List.filter (fun p => bool_decide (p <> [] /\ parent p = d)) (entries w)
         else []), w).

Definition rglob_star (d : Path) : M (list Path) :=
  fun w =>
    (Ok (if is_dir w d
         then List.filter
                (fun p => bool_decide ((length d < length p)%nat /\ take (length d) p = d))
                (entries w)
         else []), w).

Section Program.
Context {U : UnicodeData} (E : Env).

Definition tinify_compress_file (input_path output_path : Path) : M unit :=
  if negb (TINIFY_AVAILABLE E) then
    raise (RuntimeError "Le module 'tinify' n'est pas installé.")
  else
    let key := TINIFY_KEY E in
    let key := if negb (key_set key) then TINIFY_KEY E else key in
    match key with
    | Some ((_ :: _) as key) =>
        let* upload := read_file input_path in
        let* source := lift (tinify_service E key upload) in
        write_file output_path source
    | _ => raise (RuntimeError "Variable d'environnement TINIFY_KEY manquante.")
    end.

Definition save_formats_from_image (img : Image) (base_out : Path) (quality : Z)
  : M (list (string * Path)) :=
  let written := [] in
  let* jpg_path := lift (with_suffix base_out (lit ".jpg")) in
  let* _ := Image_save img jpg_path
              {| format := "JPEG"; quality := Some quality; optimize := true;
                 method := None; dpi := Some TARGET_DPI |} in
  let written := written ++ [("jpg"%string, jpg_path)] in
  let* webp_path := lift (with_suffix base_out (lit ".webp")) in
  let* _ := Image_save img webp_path
              {| format := "WEBP"; quality := Some quality; optimize := false;
                 method := Some 6%Z; dpi := Some TARGET_DPI |} in
  let written := written ++ [("webp"%string, webp_path)] in
  if AVIF_SUPPORTED E then
    let* avif_path := lift (with_suffix base_out (lit ".avif")) in
    let* _ := Image_save img avif_path
                {| format := "AVIF"; quality := Some quality; optimize := false;
                   method := None; dpi := Some TARGET_DPI |} in
    let written := written ++ [("avif"%string, avif_path)] in
    ret written
  else ret written.

(** The suite of the [try] statement of [process_one]. *)
Definition process_one_try (src rel out_dir : Path) (no_rename use_tinypng : bool)
    (quality : Z) (keep_structure : bool) : M unit :=
  let* (orientation, img_resized) :=
    (let* im := Image_open src in
     let orientation := if is_landscape im then "landscape"%string else "portrait"%string in
     let* img_resized := lift (resize_preserve_ratio im TARGET_SIZE) in
     ret (orientation, img_resized)) in
  let subdir := if keep_structure then parent rel else [] in
  let target_dir := joinpath out_dir subdir in
  let* _ := ensure_dir target_dir in
  let stem := if no_rename then stem src else sanitize_filename (stem src) in
  let base_out := joinpath target_dir [stem] in
  let* written :=
    if use_tinypng then
      let* tmp_png := lift (with_suffix base_out (lit ".tmp.png")) in
      let* _ := Image_save img_resized tmp_png
                  {| format := "PNG"; quality := None; optimize := true;
                     method := None; dpi := Some TARGET_DPI |} in
      let* compressed_png := lift (with_suffix base_out (lit ".tmp_compressed.png")) in
      let* _ := tinify_compress_file tmp_png compressed_png in
      let* _ := unlink tmp_png true in
      let* written :=
        (let* cim := Image_open compressed_png in
         let cim := convert cim "RGB" in
         save_formats_from_image cim base_out quality) in
      let* _ := unlink compressed_png true in
      ret written
    else save_formats_from_image img_resized base_out quality in
  print (OK (name src) stem orientation (map (fun kv => name (snd kv)) written)).

Definition process_one (src rel out_dir : Path) (no_rename use_tinypng : bool)
    (quality : Z) (keep_structure : bool) : M unit :=
  try_except
    (process_one_try src rel out_dir no_rename use_tinypng quality keep_structure)
    (fun e => eprint (ERR src e)).

Definition wanted (w : World) (p : Path) : bool :=
  is_file w p && bool_decide (lower (suffix p) ∈ exts).

Definition iter_images (input_dir : Path) (recursive : bool) : M (list Path) :=
  if recursive then
    let* ps := rglob_star input_dir in
    fun w => (Ok (List.filter (wanted w) ps), w)
  else
    let* ps := glob_star input_dir in
    fun w => (Ok (List.filter (wanted w) ps), w).

(** [sys.exit(code)]: nothing in [main] catches [SystemExit], so the
    call ends [main] with that status. *)
Definition sys_exit (code : Z) : M Z := ret code.

(** [main] returns the exit status: that of [sys.exit], or 0 when the
    function returns. *)
Definition main (args : Args) : M Z :=
  let input_dir := input_dir args in
  let out_dir := out args in
  let* _ := ensure_dir out_dir in
  let rest : M Z :=
    let* found := exists_ input_dir in
    if negb found then
      let* _ := eprint (TextPath "Erreur: dossier introuvable: " input_dir EmptyString) in
      sys_exit 1
    else
      let* _ :=
        if negb (AVIF_SUPPORTED E)
        then print (Text "[INFO] AVIF non disponible (installe 'pillow-avif-plugin' si tu veux l'export AVIF).")
        else ret tt in
      let* files := iter_images input_dir (recursive args) in
      if is_empty files then
        let* _ := print (Text "Aucune image trouvée.") in
        ret 0%Z
      else
        let* _ :=
          for_each
            (fun src =>
               let* rel := lift (relative_to src input_dir) in
               process_one src rel out_dir (no_rename args) (tinypng args)
                 (arg_quality args) (keep_structure args))
            files in
        ret 0%Z in
  if (tinypng args && negb (TINIFY_AVAILABLE E))%bool then
    let* _ := eprint (Text "Erreur: tinify n'est pas installé. Fais: pip install tinify") in
    sys_exit 1
  else if tinypng args then
    let tinify_key := TINIFY_KEY E in
    if negb (key_set tinify_key) then
      let env_path := joinpath (script_dir E) [lit ".env"] in
      let* _ := eprint (Text "Erreur: TINIFY_KEY manquant.") in
      let* _ := eprint (TextPath "Créez un fichier .env dans " (script_dir E)
                         " avec: TINIFY_KEY='votre_cle'") in
      let* _ := eprint (Text "Ou utilisez: export TINIFY_KEY='votre_cle'") in
      let* env_exists := exists_ env_path in
      let* _ :=
        if env_exists then
          let* _ := eprint (TextPath "Note: Le fichier .env existe à " env_path
                             " mais la clé n'a pas été chargée.") in
          eprint (Text "Assurez-vous que python-dotenv est installé: pip install python-dotenv")
        else ret tt in
      sys_exit 1
    else rest
  else rest.

(** Running the script: an exception that leaves [main] is printed as a
    traceback and the interpreter exits with status 1. *)
Definition run (args : Args) (w : World) : Z * World :=
  match main args w with
  | (Ok code, w') => (code, w')
  | (Raise e, w') =>
      (1%Z, {| fs := fs w'; stdout := stdout w'; stderr := stderr w' ++ [Traceback e] |})
  end.

End Program.


(** ** Views of the program used in the statements *)

(** Lines 53-58 of [resize_preserve_ratio]: where the pixels of the RGB
    image come from. *)
Definition has_alpha_or_palette (img : Image) : bool :=
  existsb (String.eqb (mode img)) ["RGBA"; "LA"; "P"]%string.

Definition white_canvas (img : Image) : Image :=
  new "RGBA" (size img) (255, 255, 255, 255)%Z.

Definition flattened (img : Image) : Image :=
  {| mode := "RGB"; width := width img; height := height img;
     px := Converted "RGB"
             (if has_alpha_or_palette img
              then AlphaComposite (Solid 255 255 255 255) (Converted "RGBA" (px img))
              else px img) |}.

(** Lines 60-69: the new size. *)
Definition new_size (w h max_size : Z) : result (Z * Z) :=
  if (w >=? h)%Z then
    let? ratio := Binary64.truediv max_size w in
    let? scaled := Binary64.int_mul h ratio in
    let? new_h := Binary64.to_int scaled in
    Ok (max_size, new_h)
  else
    let? ratio := Binary64.truediv max_size h in
    let? scaled := Binary64.int_mul w ratio in
    let? new_w := Binary64.to_int scaled in
    Ok (new_w, max_size).

(** The size the specification states: exact floor of the rational. *)
Definition floor_size (W H : Z) : Z * Z :=
  if (W >=? H)%Z then (3333, H * 3333 / W)%Z else (W * 3333 / H, 3333)%Z.

(** A computation that writes nothing to the two streams. *)
Definition quiet {A} (m : M A) : Prop :=
  forall w, stdout (snd (m w)) = stdout w /\ stderr (snd (m w)) = stderr w.

Definition is_OK (l : line) : bool :=
  match l with
  | OK _ _ _ _ => true
  | _ => false
  end.

(** The fatal conditions of [main], looked up once the output directory
    is there. *)
Definition fatal (E : Env) (args : Args) (w : World) : bool :=
  (tinypng args && negb (TINIFY_AVAILABLE E))
  || (tinypng args && negb (key_set (TINIFY_KEY E)))
  || negb (bool_decide (is_Some (stat w (input_dir args)))).

(** A computation that ends with one [OK] line on the standard output
    when it returns, and writes nothing when it raises. *)
Definition logs_ok {A} (m : M A) : Prop :=
  forall w,
    match m w with
    | (Ok _, w') =>
        stderr w' = stderr w
        /\ exists l, is_OK l = true /\ stdout w' = stdout w ++ [l]
    | (Raise _, w') => stdout w' = stdout w /\ stderr w' = stderr w
    end.

Definition ok_lines (w : World) : nat := length (List.filter is_OK (stdout w)).

Section Batch.
Context {U : UnicodeData} (E : Env).

(** The body of the [for] loop of [main]. *)
Definition loop_body (args : Args) (src : Path) : M unit :=
  let* rel := lift (relative_to src (input_dir args)) in
  process_one E src rel (out args) (no_rename args) (tinypng args)
    (arg_quality args) (keep_structure args).

(** What the [try] suite of each file does, in the order of the batch:
    [None] when it returns, the exception when it raises. *)
Fixpoint outcomes (args : Args) (files : list Path) (w : World)
  : list (option exception) :=
  match files with
  | [] => []
  | src :: rest =>
      match process_one_try E src (drop (length (input_dir args)) src) (out args)
              (no_rename args) (tinypng args) (arg_quality args)
              (keep_structure args) w with
      | (Ok _, w1) => None :: outcomes args rest w1
      | (Raise e, w1) => Some e :: outcomes args rest (snd (eprint (ERR src e) w1))
      end
  end.

(** The world in which the batch starts: the output directory is there
    and the note on AVIF has been printed. *)
Definition after_info (w1 : World) : World :=
  if negb (AVIF_SUPPORTED E)
  then snd (print (Text "[INFO] AVIF non disponible (installe 'pillow-avif-plugin' si tu veux l'export AVIF).") w1)
  else w1.

End Batch.

Fixpoint err_lines (files : list Path) (trace : list (option exception)) : list line :=
  match files, trace with
  | src :: files', Some e :: trace' => ERR src e :: err_lines files' trace'
  | _ :: files', None :: trace' => err_lines files' trace'
  | _, _ => []
  end.

Definition successes (trace : list (option exception)) : nat :=
  length (List.filter (fun r => match r with None => true | Some _ => false end) trace).

(** The files that [iter_images] yields in a world. *)
Definition discovered {U : UnicodeData} (args : Args) (w : World) : list Path :=
  match fst (iter_images (input_dir args) (recursive args) w) with
  | Ok files => files
  | Raise _ => []
  end.

(** [main] from the existence check of the input directory onwards. *)
Definition after_checks {U : UnicodeData} (E : Env) (args : Args) : M Z :=
  let* found := exists_ (input_dir args) in
  if negb found then
    let* _ := eprint (TextPath "Erreur: dossier introuvable: " (input_dir args) EmptyString) in
    sys_exit 1
  else
    let* _ :=
      if negb (AVIF_SUPPORTED E)
      then print (Text "[INFO] AVIF non disponible (installe 'pillow-avif-plugin' si tu veux l'export AVIF).")
      else ret tt in
    let* files := iter_images (input_dir args) (recursive args) in
    if is_empty files then
      let* _ := print (Text "Aucune image trouvée.") in
      ret 0%Z
    else
      let* _ := for_each (loop_body E args) files in
      ret 0%Z.

(** ** Concrete worlds *)

Module Scenario.

Definition png : encoding :=
  {| format := "PNG"; quality := None; optimize := false; method := None;
     dpi := None |}.

Definition picture (m : string) (w h : Z) (id : N) : node :=
  File (Raster png {| mode := m; width := w; height := h; px := Bitmap id |}).

(** No AVIF plugin; tinify installed, a key in the environment, and a
    service that answers with the upload itself. *)
Definition env : Env :=
  {| AVIF_SUPPORTED := false; TINIFY_AVAILABLE := true;
     TINIFY_KEY := Some (lit "key"); script_dir := [lit "app"];
     tinify_service := fun _ d => Ok d |}.

Definition args (i o : Path) (keep_names remote : bool) : Args :=
  {| input_dir := i; out := o; recursive := false; no_rename := keep_names;
     tinypng := remote; arg_quality := 85; keep_structure := false |}.

Definition world (nodes : list (Path * node)) : World :=
  {| fs := list_to_map nodes; stdout := []; stderr := [] |}.

(** Two images and a file that is no image. *)
Definition batch : World :=
  world [ ([lit "in"], Dir);
          ([lit "in"; lit "a.png"], picture "RGB" 4000 3000 1);
          ([lit "in"; lit "b.jpg"], File Junk);
          ([lit "in"; lit "c.png"], picture "RGBA" 600 800 2) ].

(** One image whose stem has a dot. *)
Definition dotted : World :=
  world [ ([lit "in"], Dir);
          ([lit "in"; lit "photo.v2.png"], picture "RGB" 4000 3000 1) ].

(** An output directory in which [a.jpg] is a directory. *)
Definition blocked : World :=
  world [ ([lit "in"], Dir);
          ([lit "in"; lit "a.png"], picture "RGB" 4000 3000 1);
          ([lit "out"], Dir);
          ([lit "out"; lit "a.jpg"], Dir) ].

(** Only an output directory. *)
Definition bare : World := world [ ([lit "out"], Dir) ].

(** A regular file where the output directory should go. *)
Definition occupied : World := world [ ([lit "out"], File Junk) ].

End Scenario.

(** The name of a path without what [with_suffix] takes for its suffix. *)
Definition root_name (p : Path) : str :=
  if is_empty (suffix p) then name p
  else take (length (name p) - length (suffix p)) (name p).

(** A computation that does not create the path [p]. *)
Definition keeps_absent {A} (p : Path) (m : M A) : Prop :=
  forall w, fs w !! p = None -> fs (snd (m w)) !! p = None.

Section RoundTripViews.
Context (E : Env).

(** The round trip of [process_one] in two parts: up to the deletion of
    the temporary PNG, and from the decoding of the compressed PNG on. *)
Definition round_trip_send (img_resized : Image) (base_out : Path) : M (Path * Path) :=
  let* tmp_png := lift (with_suffix base_out (lit ".tmp.png")) in
  let* _ := Image_save img_resized tmp_png
              {| format := "PNG"; quality := None; optimize := true;
                 method := None; dpi := Some TARGET_DPI |} in
  let* compressed_png := lift (with_suffix base_out (lit ".tmp_compressed.png")) in
  let* _ := tinify_compress_file E tmp_png compressed_png in
  let* _ := unlink tmp_png true in
  ret (tmp_png, compressed_png).

Definition round_trip_receive (compressed_png base_out : Path) (quality : Z)
  : M (list (string * Path)) :=
  let* written :=
    (let* cim := Image_open compressed_png in
     let cim := convert cim "RGB" in
     save_formats_from_image E cim base_out quality) in
  let* _ := unlink compressed_png true in
  ret written.

Definition round_trip (img_resized : Image) (base_out : Path) (quality : Z)
  : M (list (string * Path)) :=
  let* (_, compressed_png) := round_trip_send img_resized base_out in
  round_trip_receive compressed_png base_out quality.

End RoundTripViews.

(** The base path that [process_one] hands to the encoders. *)
Definition base_out {U : UnicodeData} (src rel out_dir : Path)
    (no_rename keep_structure : bool) : Path :=
  joinpath (joinpath out_dir (if keep_structure then parent rel else []))
    [if no_rename then stem src else sanitize_filename (stem src)].

(** ** Further vocabulary for the properties *)

(** A slug: not empty, only [[a-z0-9_]], no two underscores in a row,
    none in front, none at the end. *)
Definition no_trail (s : str) : bool := no_lead (rev s).

Definition is_slug (s : str) : bool :=
  negb (is_empty s) && forallb word_class s && nodouble s && no_lead s && no_trail s.

(** Checks on the new size, run over ranges of sizes. *)
Definition keeps_size (w h : Z) : bool :=
  match new_size w h TARGET_SIZE with
  | Ok (w', h') => (w' =? w)%Z && (h' =? h)%Z
  | Raise _ => false
  end.

Definition square_within_one (side : Z) : bool :=
  match new_size side side TARGET_SIZE with
  | Ok (w', h') => (w' =? TARGET_SIZE)%Z && ((h' =? 3333)%Z || (h' =? 3332)%Z)
  | Raise _ => false
  end.

(** Every entry of the file system sits in a directory. *)
Definition well_formed (w : World) : Prop :=
  forall p, p <> [] -> is_Some (fs w !! p) -> is_dir w (parent p) = true.

(** A computation that changes the file system at most at the paths
    that satisfy [P], whether it returns or raises. *)
Definition touches_only {A} (P : Path -> Prop) (m : M A) : Prop :=
  forall w p, ~ P p -> fs (snd (m w)) !! p = fs w !! p.

(** A computation that removes or replaces no directory. *)
Definition keeps_dirs {A} (m : M A) : Prop :=
  forall w p, fs w !! p = Some Dir -> fs (snd (m w)) !! p = Some Dir.

(** The paths on the branch of the output directory: its ancestors,
    itself, and what lies below it. *)
Definition around (out_dir p : Path) : Prop :=
  p `prefix_of` out_dir \/ out_dir `prefix_of` p.

(** The settings [process_one] and [save_formats_from_image] pass to
    [Image.save]. *)
Definition PNG_settings : encoding :=
  {| format := "PNG"; quality := None; optimize := true; method := None;
     dpi := Some TARGET_DPI |}.

Definition JPEG_settings (q : Z) : encoding :=
  {| format := "JPEG"; quality := Some q; optimize := true; method := None;
     dpi := Some TARGET_DPI |}.

Definition WEBP_settings (q : Z) : encoding :=
  {| format := "WEBP"; quality := Some q; optimize := false; method := Some 6%Z;
     dpi := Some TARGET_DPI |}.

Definition AVIF_settings (q : Z) : encoding :=
  {| format := "AVIF"; quality := Some q; optimize := false; method := None;
     dpi := Some TARGET_DPI |}.

Module Scenario2.

(** An input directory with a sub-directory. *)
Definition nested : World :=
  Scenario.world [ ([lit "in"], Dir);
                   ([lit "in"; lit "a.png"], Scenario.picture "RGB" 4000 3000 1);
                   ([lit "in"; lit "notes.txt"], File Junk);
                   ([lit "in"; lit "sub"], Dir);
                   ([lit "in"; lit "sub"; lit "b.JPG"], Scenario.picture "L" 300 900 2) ].

(** tinify installed and a key set, but the service refuses the upload. *)
Definition refusing : Env :=
  {| AVIF_SUPPORTED := true; TINIFY_AVAILABLE := true;
     TINIFY_KEY := Some (lit "key"); script_dir := [lit "app"];
     tinify_service := fun _ _ => Raise (TinifyError "AccountError") |}.

(** The AVIF plugin installed, no tinify. *)
Definition with_avif : Env :=
  {| AVIF_SUPPORTED := true; TINIFY_AVAILABLE := false;
     TINIFY_KEY := None; script_dir := [lit "app"];
     tinify_service := fun _ d => Ok d |}.

End Scenario2.
(** * Properties *)

(** ** Strings *)

Ltac nbool :=
  repeat match goal with
         | H : _ && _ = true |- _ => apply andb_prop in H; destruct H
         | H : _ || _ = true |- _ => apply orb_prop in H; destruct H
         | H : negb _ = true |- _ => apply negb_true_iff in H
         | H : (_ <=? _)%N = true |- _ => apply N.leb_le in H
         | H : (_ <? _)%N = true |- _ => apply N.ltb_lt in H
         | H : (_ =? _)%N = true |- _ => apply N.eqb_eq in H
         | H : (_ <=? _)%N = false |- _ => apply N.leb_gt in H
         | H : (_ <? _)%N = false |- _ => apply N.ltb_ge in H
         | H : (_ =? _)%N = false |- _ => apply N.eqb_neq in H
         end.

Section StringFacts.

Lemma replace_twice (s : str) :
  replace SPACE UNDERSCORE (replace HYPHEN UNDERSCORE s)
  = Reference.underscore_separators s.
Proof.
  unfold replace, Reference.underscore_separators.
  rewrite map_map. apply map_ext. intros c.
  destruct (N.eqb c HYPHEN) eqn:Hh; simpl; [reflexivity|].
  destruct (N.eqb c SPACE); reflexivity.
Qed.

Lemma re_sub_runs_delete cls b (s : str) :
  re_sub_runs cls [] b s = List.filter (fun c => negb (cls c)) s.
Proof.
  revert b. induction s as [|c s IH]; intros b; simpl; [reflexivity|].
  destruct (cls c); simpl.
  - destruct b; apply IH.
  - f_equal. apply IH.
Qed.

Lemma collapse_cons_underscore (t : str) :
  Reference.collapse_underscores (UNDERSCORE :: t)
  = UNDERSCORE :: Reference.collapse_underscores (lstrip UNDERSCORE t).
Proof.
  induction t as [|c t IH]; [reflexivity|].
  change (Reference.collapse_underscores (UNDERSCORE :: c :: t))
    with (if (is_underscore UNDERSCORE && is_underscore c)%bool
          then Reference.collapse_underscores (c :: t)
          else UNDERSCORE :: Reference.collapse_underscores (c :: t)).
  simpl lstrip. unfold is_underscore at 1 2.
  destruct (N.eqb c UNDERSCORE) eqn:Hc; simpl.
  - apply N.eqb_eq in Hc. subst c. exact IH.
  - reflexivity.
Qed.

Lemma collapse_cons_other (c : char) (t : str) :
  is_underscore c = false ->
  Reference.collapse_underscores (c :: t) = c :: Reference.collapse_underscores t.
Proof.
  intros Hc. destruct t as [|c' t]; [reflexivity|].
  cbn [Reference.collapse_underscores]. rewrite Hc. reflexivity.
Qed.

Lemma re_sub_runs_collapse (b : bool) (s : str) :
  re_sub_runs is_underscore (lit "_") b s
  = Reference.collapse_underscores (if b then lstrip UNDERSCORE s else s).
Proof.
  revert b. induction s as [|c s IH]; intros b.
  - destruct b; reflexivity.
  - cbn [re_sub_runs lstrip]. unfold is_underscore at 1.
    destruct (N.eqb c UNDERSCORE) eqn:Hc.
    + apply N.eqb_eq in Hc. subst c. rewrite (IH true).
      destruct b; [reflexivity|].
      rewrite collapse_cons_underscore. reflexivity.
    + rewrite (IH false).
      destruct b; rewrite collapse_cons_other by exact Hc; reflexivity.
Qed.

Lemma rstrip_snoc c (l : str) x :
  rstrip c (l ++ [x]) = if N.eqb x c then rstrip c l else l ++ [x].
Proof.
  induction l as [|y l IH]; simpl.
  - destruct (N.eqb x c); reflexivity.
  - rewrite IH. destruct (N.eqb x c) eqn:Hx; [reflexivity|].
    destruct (l ++ [x]) eqn:Hl; [|reflexivity].
    destruct l; discriminate.
Qed.

Lemma rstrip_rev c (l : str) : rev (lstrip c l) = rstrip c (rev l).
Proof.
  induction l as [|x l IH]; [reflexivity|].
  cbn [lstrip rev]. rewrite rstrip_snoc.
  destruct (N.eqb x c); [exact IH | reflexivity].
Qed.

Lemma strip_trim (s : str) : strip UNDERSCORE s = Reference.trim_underscores s.
Proof.
  unfold strip, Reference.trim_underscores.
  rewrite rstrip_rev, rev_involutive. reflexivity.
Qed.

End StringFacts.

(** ** sanitize_filename *)

Section SanitizeFacts.
Context {U : UnicodeData}.

Lemma sanitize_filename_unfold (x : str) :
  sanitize_filename x = Reference.sanitize x.
Proof.
  unfold sanitize_filename, Reference.sanitize, re_sub.
  rewrite replace_twice, re_sub_runs_delete, re_sub_runs_collapse, strip_trim.
  unfold Reference.strip_accents, Reference.keep_word_chars,
    Reference.is_combining_mark.
  rewrite (filter_ext (fun c => negb (negb (word_class c))) word_class)
    by (intros c; apply negb_involutive).
  rewrite (filter_ext (fun c => negb (negb (N.eqb (combining c) 0)))
             (fun c => N.eqb (combining c) 0))
    by (intros c; apply negb_involutive).
  unfold Reference.or_image.
  match goal with |- context [Reference.trim_underscores ?t] =>
    destruct (Reference.trim_underscores t) end.
  - reflexivity.
  - destruct (decide _); [discriminate | reflexivity].
Qed.

Lemma sanitize_filename_steps (x : str) :
  sanitize_filename x = or_image (tidy (to_words x)).
Proof. reflexivity. Qed.

Lemma to_words_word_class (x : str) : forallb word_class (to_words x) = true.
Proof.
  unfold to_words, re_sub. rewrite re_sub_runs_delete.
  apply forallb_forall. intros c Hc. apply filter_In in Hc as [_ Hc].
  rewrite negb_involutive in Hc. exact Hc.
Qed.

Lemma word_class_ascii (s : str) :
  forallb word_class s = true -> forallb is_ascii s = true.
Proof.
  rewrite !forallb_forall. intros H c Hc. specialize (H c Hc).
  unfold word_class in H. unfold is_ascii. apply N.ltb_lt. nbool; lia.
Qed.

Lemma replace_absent old new (s : str) :
  forallb (fun c => negb (N.eqb c old)) s = true -> replace old new s = s.
Proof.
  induction s as [|c s IH]; simpl; [reflexivity|].
  intros H. apply andb_prop in H as [Hc Hs]. apply negb_true_iff in Hc.
  rewrite Hc, (IH Hs). reflexivity.
Qed.

Lemma word_class_not (k : char) (s : str) :
  word_class k = false ->
  forallb word_class s = true -> forallb (fun c => negb (N.eqb c k)) s = true.
Proof.
  intros Hk. rewrite !forallb_forall. intros H c Hc. specialize (H c Hc).
  apply negb_true_iff, N.eqb_neq. intros ->. congruence.
Qed.

Lemma filter_all {A} (f : A -> bool) (l : list A) :
  forallb f l = true -> List.filter f l = l.
Proof.
  induction l as [|a l IH]; simpl; [reflexivity|].
  intros H. apply andb_prop in H as [Ha Hl]. rewrite Ha, (IH Hl). reflexivity.
Qed.

Lemma ascii_lower_word (s : str) :
  forallb word_class s = true -> map ascii_lower s = s.
Proof.
  induction s as [|c s IH]; simpl; [reflexivity|].
  intros H. apply andb_prop in H as [Hc Hs]. rewrite (IH Hs). f_equal.
  unfold ascii_lower, word_class in *.
  destruct ((65 <=? c)%N && (c <=? 90)%N) eqn:Hu; [|reflexivity].
  nbool; lia.
Qed.

(** On a string of word characters the Unicode steps change nothing. *)
Lemma to_words_stable `{!UnicodeLaws U} (y : str) :
  forallb word_class y = true -> to_words y = y.
Proof.
  intros Hy. unfold to_words, re_sub.
  pose proof (word_class_ascii y Hy) as Ha.
  rewrite (replace_absent HYPHEN) by (apply word_class_not; [reflexivity | exact Hy]).
  rewrite (replace_absent SPACE) by (apply word_class_not; [reflexivity | exact Hy]).
  rewrite nfkd_ascii by exact Ha.
  rewrite (filter_all (fun c => N.eqb (combining c) 0)).
  2:{ apply forallb_forall. intros c Hc.
      rewrite combining_ascii; [reflexivity|].
      rewrite forallb_forall in Ha. exact (Ha c Hc). }
  rewrite lower_ascii by exact Ha.
  rewrite ascii_lower_word by exact Hy.
  rewrite re_sub_runs_delete. apply filter_all.
  rewrite forallb_forall in *. intros c Hc. rewrite negb_involutive. exact (Hy c Hc).
Qed.

End SanitizeFacts.

(** ** Tidying underscores is idempotent *)

Section Tidy.

Local Abbreviation collapse := Reference.collapse_underscores.

Lemma collapse_head (c : char) (t : str) : exists r, collapse (c :: t) = c :: r.
Proof.
  destruct (is_underscore c) eqn:Hc.
  - apply N.eqb_eq in Hc. subst c. rewrite collapse_cons_underscore. eauto.
  - rewrite collapse_cons_other by exact Hc. eauto.
Qed.

Lemma collapse_cons2 (c c' : char) (t : str) :
  collapse (c :: c' :: t)
  = if is_underscore c && is_underscore c'
    then collapse (c' :: t) else c :: collapse (c' :: t).
Proof. reflexivity. Qed.

Lemma nodouble_cons2 (c c' : char) (t : str) :
  nodouble (c :: c' :: t)
  = negb (is_underscore c && is_underscore c') && nodouble (c' :: t).
Proof. reflexivity. Qed.

Lemma collapse_nodouble (s : str) : nodouble (collapse s) = true.
Proof.
  induction s as [|c s IH]; [reflexivity|].
  destruct s as [|c' t]; [reflexivity|].
  rewrite collapse_cons2.
  destruct (is_underscore c && is_underscore c') eqn:Hcc; [exact IH|].
  destruct (collapse_head c' t) as [r Hr].
  rewrite Hr in IH |- *. rewrite nodouble_cons2, Hcc. exact IH.
Qed.

Lemma collapse_id (u : str) : nodouble u = true -> collapse u = u.
Proof.
  induction u as [|c u IH]; [reflexivity|].
  destruct u as [|c' t]; [reflexivity|].
  rewrite nodouble_cons2, collapse_cons2. intros H.
  apply andb_prop in H as [Hcc Hn]. apply negb_true_iff in Hcc.
  rewrite Hcc. f_equal. exact (IH Hn).
Qed.

Lemma nodouble_tail (c : char) (t : str) : nodouble (c :: t) = true -> nodouble t = true.
Proof.
  destruct t; [reflexivity|]. rewrite nodouble_cons2. intros H.
  apply andb_prop in H as [_ H]. exact H.
Qed.

Lemma nodouble_lstrip c (u : str) : nodouble u = true -> nodouble (lstrip c u) = true.
Proof.
  induction u as [|x u IH]; [reflexivity|]. intros H. cbn [lstrip].
  destruct (N.eqb x c); [|exact H].
  apply IH. exact (nodouble_tail _ _ H).
Qed.

Lemma rstrip_head c (x y : char) (u r : str) :
  rstrip c (x :: u) = y :: r -> y = x.
Proof.
  cbn [rstrip]. destruct (rstrip c u); [destruct (N.eqb x c)|]; congruence.
Qed.

Lemma nodouble_rstrip c (u : str) : nodouble u = true -> nodouble (rstrip c u) = true.
Proof.
  induction u as [|x u IH]; [reflexivity|]. intros H.
  pose proof (IH (nodouble_tail _ _ H)) as IH'.
  cbn [rstrip]. destruct (rstrip c u) as [|y r] eqn:Hr.
  - destruct (N.eqb x c); reflexivity.
  - destruct u as [|x' u']; [discriminate|].
    apply rstrip_head in Hr as Hy. subst y.
    rewrite nodouble_cons2 in H |- *. apply andb_prop in H as [Hxx _].
    rewrite Hxx. exact IH'.
Qed.

Lemma no_lead_lstrip (s : str) : no_lead (lstrip UNDERSCORE s) = true.
Proof.
  induction s as [|x s IH]; [reflexivity|]. cbn [lstrip].
  destruct (N.eqb x UNDERSCORE) eqn:Hx; [exact IH|].
  cbn. unfold is_underscore. rewrite Hx. reflexivity.
Qed.

Lemma lstrip_no_lead (u : str) : no_lead u = true -> lstrip UNDERSCORE u = u.
Proof.
  destruct u as [|x u]; [reflexivity|]. cbn. unfold is_underscore.
  intros H. apply negb_true_iff in H. rewrite H. reflexivity.
Qed.

Lemma no_lead_rstrip (u : str) : no_lead u = true -> no_lead (rstrip UNDERSCORE u) = true.
Proof.
  destruct u as [|x u]; [reflexivity|]. cbn [no_lead rstrip]. intros H.
  destruct (rstrip UNDERSCORE u).
  - unfold is_underscore in H. apply negb_true_iff in H. rewrite H. cbn.
    unfold is_underscore. rewrite H. reflexivity.
  - exact H.
Qed.

Lemma rstrip_cons c (x : char) (s : str) :
  rstrip c (x :: s)
  = match rstrip c s with
    | [] => if N.eqb x c then [] else [x]
    | r => x :: r
    end.
Proof. reflexivity. Qed.

Lemma rstrip_idem c (z : str) : rstrip c (rstrip c z) = rstrip c z.
Proof.
  induction z as [|x z IH]; [reflexivity|].
  rewrite rstrip_cons. destruct (rstrip c z) as [|y r] eqn:Hr.
  - destruct (N.eqb x c) eqn:Hx; [reflexivity|]. cbn. rewrite Hx. reflexivity.
  - rewrite rstrip_cons, IH. reflexivity.
Qed.

Lemma tidy_collapse (s : str) :
  tidy s = rstrip UNDERSCORE (lstrip UNDERSCORE (collapse s)).
Proof. unfold tidy, re_sub, strip. rewrite re_sub_runs_collapse. reflexivity. Qed.

Lemma tidy_idem (s : str) : tidy (tidy s) = tidy s.
Proof.
  rewrite !tidy_collapse.
  set (u := rstrip UNDERSCORE (lstrip UNDERSCORE (collapse s))).
  assert (nodouble u = true) as Hn
    by (apply nodouble_rstrip, nodouble_lstrip, collapse_nodouble).
  assert (no_lead u = true) as Hl by (apply no_lead_rstrip, no_lead_lstrip).
  rewrite (collapse_id u Hn), (lstrip_no_lead u Hl).
  subst u. apply rstrip_idem.
Qed.

Lemma forallb_lstrip (P : char -> bool) c (s : str) :
  forallb P s = true -> forallb P (lstrip c s) = true.
Proof.
  induction s as [|x s IH]; [reflexivity|]. intros H. cbn [lstrip].
  destruct (N.eqb x c); [|exact H].
  cbn in H. apply andb_prop in H as [_ H]. exact (IH H).
Qed.

Lemma forallb_rstrip (P : char -> bool) c (s : str) :
  forallb P s = true -> forallb P (rstrip c s) = true.
Proof.
  induction s as [|x s IH]; [reflexivity|]. intros H.
  cbn in H. apply andb_prop in H as [Hx H]. specialize (IH H).
  cbn [rstrip]. destruct (rstrip c s).
  - destruct (N.eqb x c); [reflexivity|]. cbn. rewrite Hx. reflexivity.
  - cbn [forallb] in *. rewrite Hx. exact IH.
Qed.

Lemma forallb_collapse (P : char -> bool) (s : str) :
  forallb P s = true -> forallb P (collapse s) = true.
Proof.
  induction s as [|c s IH]; [reflexivity|]. intros H.
  cbn in H. apply andb_prop in H as [Hc H]. specialize (IH H).
  destruct s as [|c' t]; [cbn; rewrite Hc; reflexivity|].
  rewrite collapse_cons2.
  destruct (is_underscore c && is_underscore c'); [exact IH|].
  cbn [forallb]. rewrite Hc. exact IH.
Qed.

Lemma tidy_word_class (s : str) :
  forallb word_class s = true -> forallb word_class (tidy s) = true.
Proof.
  intros H. rewrite tidy_collapse.
  apply forallb_rstrip, forallb_lstrip, forallb_collapse, H.
Qed.

End Tidy.

(** ** The Latin-1 database obeys the ASCII laws *)

Lemma ascii_cases (P : char -> bool) :
  forallb P (map N.of_nat (seq 0 128)) = true ->
  forall c, is_ascii c = true -> P c = true.
Proof.
  intros H c Hc. rewrite forallb_forall in H. apply H.
  apply N.ltb_lt in Hc. rewrite <- (N2Nat.id c). apply in_map, in_seq. lia.
Qed.

Lemma Latin1_decompose_ascii (c : char) :
  is_ascii c = true -> Latin1.decompose c = [c].
Proof.
  intros Hc.
  apply (ascii_cases (fun c => bool_decide (Latin1.decompose c = [c]))) in Hc.
  - apply bool_decide_eq_true in Hc. exact Hc.
  - vm_compute. reflexivity.
Qed.

Lemma Latin1_lower_ascii (c : char) :
  is_ascii c = true -> Latin1.lower_char c = ascii_lower c.
Proof.
  intros Hc.
  apply (ascii_cases (fun c => N.eqb (Latin1.lower_char c) (ascii_lower c))) in Hc.
  - apply N.eqb_eq in Hc. exact Hc.
  - vm_compute. reflexivity.
Qed.

Lemma Latin1_laws : UnicodeLaws Latin1.unicodedata.
Proof.
  split.
  - intros s. cbn. induction s as [|c s IH]; [reflexivity|].
    cbn [forallb Latin1.nfkd flat_map]. intros H. apply andb_prop in H as [Hc Hs].
    rewrite (Latin1_decompose_ascii c Hc). cbn. f_equal. exact (IH Hs).
  - intros c Hc. cbn.
    apply (ascii_cases (fun c => N.eqb (Latin1.ccc c) 0)) in Hc.
    + apply N.eqb_eq in Hc. exact Hc.
    + vm_compute. reflexivity.
  - intros s. cbn. induction s as [|c s IH]; [reflexivity|].
    cbn [forallb map]. intros H. apply andb_prop in H as [Hc Hs].
    rewrite (Latin1_lower_ascii c Hc). f_equal. exact (IH Hs).
Qed.

(** ** Claims on sanitize_filename *)

Section SanitizeClaims.
Context {U : UnicodeData}.

Lemma to_words_ascii `{!UnicodeLaws U} (y : str) :
  forallb is_ascii (replace SPACE UNDERSCORE (replace HYPHEN UNDERSCORE y)) = true ->
  to_words y
  = List.filter word_class
      (map ascii_lower (replace SPACE UNDERSCORE (replace HYPHEN UNDERSCORE y))).
Proof.
  intros Ha. unfold to_words, re_sub.
  rewrite nfkd_ascii by exact Ha.
  rewrite (filter_all (fun c => N.eqb (combining c) 0)).
  2:{ apply forallb_forall. intros c Hc.
      rewrite combining_ascii; [reflexivity|].
      rewrite forallb_forall in Ha. exact (Ha c Hc). }
  rewrite lower_ascii by exact Ha.
  rewrite re_sub_runs_delete. apply filter_ext. intros c. apply negb_involutive.
Qed.

(** C2. [sanitize_filename] is the reference definition of the
    specification: separators to underscores, NFKD without combining
    marks, lower case, only [[a-z0-9_]] kept, runs of underscores
    collapsed and trimmed, ["image"] when nothing is left; the empty
    string and ["!!!"] both give ["image"]. *)
Theorem sanitize_filename_reference `{!UnicodeLaws U} (x : str) :
  sanitize_filename x = Reference.sanitize x
  /\ sanitize_filename (lit EmptyString) = lit "image"
  /\ sanitize_filename (lit "!!!") = lit "image".
Proof.
  split; [apply sanitize_filename_unfold|].
  split; rewrite sanitize_filename_steps, to_words_ascii by reflexivity;
    reflexivity.
Qed.

(** C3. [sanitize_filename] is idempotent. *)
Theorem sanitize_filename_idempotent `{!UnicodeLaws U} (x : str) :
  sanitize_filename (sanitize_filename x) = sanitize_filename x.
Proof.
  rewrite (sanitize_filename_steps x).
  pose proof (tidy_word_class _ (to_words_word_class x)) as Hw.
  destruct (tidy (to_words x)) as [|c t] eqn:Ht.
  - cbn [or_image]. rewrite sanitize_filename_steps.
    rewrite to_words_stable by reflexivity. reflexivity.
  - cbn [or_image]. rewrite sanitize_filename_steps.
    rewrite to_words_stable by exact Hw.
    rewrite <- Ht, tidy_idem, Ht. reflexivity.
Qed.

End SanitizeClaims.

Lemma sanitize_filename_reference_witness :
  let x := ([0xC9; 116; 0xE9]%N ++ lit " 2024--Photo.Final_") in
  sanitize_filename (U := Latin1.unicodedata) x
  = Reference.sanitize (U := Latin1.unicodedata) x
  /\ sanitize_filename (U := Latin1.unicodedata) (lit EmptyString) = lit "image"
  /\ sanitize_filename (U := Latin1.unicodedata) (lit "!!!") = lit "image".
Proof.
  exact (sanitize_filename_reference (U := Latin1.unicodedata)
           (UnicodeLaws0 := Latin1_laws)
           ([0xC9; 116; 0xE9]%N ++ lit " 2024--Photo.Final_")).
Defined.

Lemma sanitize_filename_idempotent_witness :
  let x := ([0xC9; 116; 0xE9]%N ++ lit " 2024--Photo.Final_") in
  sanitize_filename (U := Latin1.unicodedata) x = lit "ete_2024_photofinal"
  /\ sanitize_filename (U := Latin1.unicodedata)
       (sanitize_filename (U := Latin1.unicodedata) x)
     = sanitize_filename (U := Latin1.unicodedata) x.
Proof.
  split; [reflexivity|].
  exact (sanitize_filename_idempotent (U := Latin1.unicodedata)
           (UnicodeLaws0 := Latin1_laws)
           ([0xC9; 116; 0xE9]%N ++ lit " 2024--Photo.Final_")).
Defined.

(** ** resize_preserve_ratio *)

Lemma resize_preserve_ratio_unfold (img : Image) (max_size : Z) :
  resize_preserve_ratio img max_size
  = (let? sz := new_size (width img) (height img) max_size in
     Ok (resize (flattened img) sz "LANCZOS")).
Proof.
  unfold resize_preserve_ratio, flattened, has_alpha_or_palette, new_size.
  destruct (existsb (String.eqb (mode img)) ["RGBA"; "LA"; "P"]%string).
  - unfold alpha_composite. cbn. rewrite !Z.eqb_refl. cbn.
    destruct (width img >=? height img)%Z; cbn;
      repeat (match goal with
              | |- context [rbind ?r _] => first [destruct r as [[? ?]|] | destruct r]; cbn
              end);
      reflexivity.
  - cbn.
    destruct (width img >=? height img)%Z; cbn;
      repeat (match goal with
              | |- context [rbind ?r _] => first [destruct r as [[? ?]|] | destruct r]; cbn
              end);
      reflexivity.
Qed.

(** C9. Before it is resized the image is turned into an opaque RGB
    image: for the modes RGBA, LA and P by compositing it on a white RGBA
    canvas of its own size (which [alpha_composite] accepts), for every
    other mode by a plain conversion; whatever is returned is RGB. *)
Theorem resize_preserve_ratio_opaque (img : Image) (max_size : Z) :
  (if has_alpha_or_palette img
   then exists c,
       alpha_composite (white_canvas (convert img "RGBA")) (convert img "RGBA") = Ok c
       /\ size (white_canvas (convert img "RGBA")) = size img
       /\ px (white_canvas (convert img "RGBA")) = Solid 255 255 255 255
       /\ flattened img = convert c "RGB"
   else flattened img = convert img "RGB")
  /\ mode (flattened img) = "RGB"%string
  /\ size (flattened img) = size img
  /\ resize_preserve_ratio img max_size
     = (let? sz := new_size (width img) (height img) max_size in
        Ok (resize (flattened img) sz "LANCZOS"))
  /\ forall out, resize_preserve_ratio img max_size = Ok out -> mode out = "RGB"%string.
Proof.
  split; [|split; [reflexivity|split; [reflexivity|split]]].
  - unfold flattened. destruct (has_alpha_or_palette img).
    + unfold alpha_composite. cbn. rewrite !Z.eqb_refl. cbn.
      eexists. repeat split; reflexivity.
    + reflexivity.
  - apply resize_preserve_ratio_unfold.
  - intros out. rewrite resize_preserve_ratio_unfold.
    destruct (new_size (width img) (height img) max_size); cbn; [|discriminate].
    intros [= <-]. reflexivity.
Qed.

Lemma new_size_major (w h max_size new_w new_h : Z) :
  new_size w h max_size = Ok (new_w, new_h) ->
  if (w >=? h)%Z then new_w = max_size else new_h = max_size.
Proof.
  unfold new_size. destruct (w >=? h)%Z;
    repeat (match goal with
            | |- context [rbind ?r _] => destruct r; cbn; try discriminate
            end);
    intros [= <- <-]; reflexivity.
Qed.

(** C1. On a square image of 5184 by 5184 pixels the function returns
    3333 by 3332: the quotient 3333 / 5184 is rounded to binary64, 5184
    times the rounded quotient falls just short of 3333, and [int]
    truncates.  The exact floor of the specification is 3333 by 3333; at
    13 by 13 the same happens, at 4000 by 3000 the two agree. *)
Theorem resize_preserve_ratio_square_5184 :
  resize_preserve_ratio
    {| mode := "RGB"; width := 5184; height := 5184; px := Bitmap 0 |} TARGET_SIZE
  = Ok {| mode := "RGB"; width := 3333; height := 3332;
          px := Resampled "LANCZOS" (Converted "RGB" (Bitmap 0)) |}
  /\ floor_size 5184 5184 = (3333, 3333)%Z
  /\ new_size 13 13 TARGET_SIZE = Ok (3333, 3332)%Z
  /\ new_size 4000 3000 TARGET_SIZE = Ok (floor_size 4000 3000).
Proof. repeat split; vm_compute; reflexivity. Qed.

(** ** The monad *)

Lemma bind_Ok {A B} (m : M A) (k : A -> M B) w b w' :
  bind m k w = (Ok b, w') ->
  exists a w1, m w = (Ok a, w1) /\ k a w1 = (Ok b, w').
Proof.
  unfold bind. destruct (m w) as [[a|e] w1]; [eauto | discriminate].
Qed.

Lemma lift_Ok {A} (r : result A) w a w' :
  lift r w = (Ok a, w') -> r = Ok a /\ w' = w.
Proof. unfold lift. intros [= -> ->]. auto. Qed.

Create HintDb quiet.

Lemma quiet_ret {A} (a : A) : quiet (ret a).
Proof. intros w. auto. Qed.

Lemma quiet_raise {A} e : quiet (@raise A e).
Proof. intros w. auto. Qed.

Lemma quiet_lift {A} (r : result A) : quiet (lift r).
Proof. intros w. auto. Qed.

Lemma quiet_bind {A B} (m : M A) (k : A -> M B) :
  quiet m -> (forall a, quiet (k a)) -> quiet (bind m k).
Proof.
  intros Hm Hk w. unfold bind. specialize (Hm w).
  destruct (m w) as [[a|e] w1]; cbn in *; [|exact Hm].
  destruct (Hk a w1) as [H1 H2], Hm as [H3 H4]. split; congruence.
Qed.

Lemma quiet_read_file p : quiet (read_file p).
Proof. intros w. unfold read_file. destruct (stat w p) as [[|d]|]; auto. Qed.

Lemma quiet_write_file p d : quiet (write_file p d).
Proof.
  intros w. unfold write_file.
  destruct (stat w p) as [[|?]|]; destruct (stat w (parent p)) as [[|?]|]; auto.
Qed.

Lemma quiet_os_mkdir p : quiet (os_mkdir p).
Proof.
  intros w. unfold os_mkdir.
  destruct (stat w p) as [[|?]|]; destruct (stat w (parent p)) as [[|?]|]; auto.
Qed.

Lemma quiet_mkdir_exist_ok p : quiet (mkdir_exist_ok p).
Proof.
  intros w. unfold mkdir_exist_ok. pose proof (quiet_os_mkdir p w) as H.
  destruct (os_mkdir p w) as [[[]|e] w1]; cbn in *; [exact H|].
  destruct e; try destruct (is_dir w1 p); exact H.
Qed.

Lemma quiet_mkdir_parents rp : quiet (mkdir_parents rp).
Proof.
  induction rp as [|x rp IH]; intros w; cbn [mkdir_parents].
  - pose proof (quiet_os_mkdir (rev []) w) as H.
    destruct (os_mkdir (rev []) w) as [[[]|e] w1]; cbn [snd] in *; [exact H|].
    destruct e; try destruct (is_dir w1 _); exact H.
  - pose proof (quiet_os_mkdir (rev (x :: rp)) w) as H.
    destruct (os_mkdir (rev (x :: rp)) w) as [[[]|e] w1]; cbn [snd] in *; [exact H|].
    destruct e; try (destruct (is_dir w1 _); exact H).
    pose proof (quiet_bind (mkdir_parents rp)
                  (fun _ => mkdir_exist_ok (rev (x :: rp))) IH
                  (fun _ => quiet_mkdir_exist_ok _) w1) as [H1 H2].
    destruct H as [H3 H4]. split; congruence.
Qed.

Lemma quiet_ensure_dir p : quiet (ensure_dir p).
Proof. apply quiet_mkdir_parents. Qed.

Lemma quiet_unlink p b : quiet (unlink p b).
Proof. intros w. unfold unlink. destruct (stat w p) as [[|?]|]; [| |destruct b]; auto. Qed.

#[local] Hint Resolve quiet_ret quiet_raise quiet_lift quiet_read_file
  quiet_write_file quiet_ensure_dir quiet_unlink : quiet.

Lemma quiet_Image_open p : quiet (Image_open p).
Proof.
  apply quiet_bind; [auto with quiet|]. intros [enc img|]; auto with quiet.
Qed.

Lemma quiet_Image_save img p enc : quiet (Image_save img p enc).
Proof. apply quiet_write_file. Qed.

#[local] Hint Resolve quiet_Image_open quiet_Image_save : quiet.

Ltac quiet_steps :=
  repeat first
    [ solve [auto with quiet]
    | progress cbv zeta
    | apply quiet_bind; [auto with quiet | intros ?]
    | match goal with |- quiet (if ?b then _ else _) => destruct b end
    | match goal with |- quiet (match ?x with _ => _ end) => destruct x end ].

Section ProgramFacts.
Context {U : UnicodeData} (E : Env).

Lemma quiet_tinify_compress_file i o : quiet (tinify_compress_file E i o).
Proof. unfold tinify_compress_file. quiet_steps. Qed.

Lemma quiet_save_formats_from_image img base q :
  quiet (save_formats_from_image E img base q).
Proof. unfold save_formats_from_image. quiet_steps. Qed.

End ProgramFacts.

#[local] Hint Resolve quiet_tinify_compress_file quiet_save_formats_from_image : quiet.

(** ** One file, then the batch *)

Lemma logs_ok_bind {A B} (m : M A) (k : A -> M B) :
  quiet m -> (forall a, logs_ok (k a)) -> logs_ok (bind m k).
Proof.
  intros Hm Hk w. unfold bind. specialize (Hm w).
  destruct (m w) as [[a|e] w1]; cbn [snd] in Hm; [|exact Hm].
  specialize (Hk a w1). destruct (k a w1) as [[b|e] w2]; destruct Hm as [H1 H2].
  - destruct Hk as [H3 (l & Hl & H4)]. split; [congruence|].
    exists l. split; [exact Hl | congruence].
  - destruct Hk. split; congruence.
Qed.

Lemma logs_ok_print name stem o written : logs_ok (print (OK name stem o written)).
Proof.
  intros w. cbn. split; [reflexivity|].
  exists (OK name stem o written). split; reflexivity.
Qed.

Section BatchFacts.
Context {U : UnicodeData} (E : Env).

Lemma logs_ok_process_one_try src rel out_dir nr tp q ks :
  logs_ok (process_one_try E src rel out_dir nr tp q ks).
Proof.
  unfold process_one_try.
  apply logs_ok_bind.
  { quiet_steps. }
  intros [orientation img_resized].
  apply logs_ok_bind; [auto with quiet|]. intros _.
  apply logs_ok_bind.
  { destruct tp; quiet_steps. }
  intros written. apply logs_ok_print.
Qed.

Lemma process_one_returns src rel out_dir nr tp q ks w :
  exists w',
    process_one E src rel out_dir nr tp q ks w = (Ok tt, w')
    /\ match process_one_try E src rel out_dir nr tp q ks w with
       | (Ok _, w1) =>
           w' = w1 /\ stderr w' = stderr w
           /\ exists l, is_OK l = true /\ stdout w' = stdout w ++ [l]
       | (Raise e, w1) =>
           w' = snd (eprint (ERR src e) w1)
           /\ stdout w' = stdout w /\ stderr w' = stderr w ++ [ERR src e]
       end.
Proof.
  pose proof (logs_ok_process_one_try src rel out_dir nr tp q ks w) as H.
  unfold process_one, try_except.
  destruct (process_one_try E src rel out_dir nr tp q ks w) as [[[]|e] w1].
  - exists w1. destruct H as [H1 H2]. auto.
  - eexists. split; [reflexivity|]. cbn. destruct H as [H1 H2].
    split; [reflexivity|]. split; congruence.
Qed.

Lemma relative_to_Ok p base :
  is_relative_to p base = true -> relative_to p base = Ok (drop (length base) p).
Proof. unfold relative_to. intros ->. reflexivity. Qed.

Lemma batch_returns (args : Args) (files : list Path) :
  Forall (fun p => is_relative_to p (input_dir args) = true) files ->
  forall w, exists w',
    for_each (loop_body E args) files w = (Ok tt, w')
    /\ stderr w' = stderr w ++ err_lines files (outcomes E args files w)
    /\ ok_lines w' = (ok_lines w + successes (outcomes E args files w))%nat
    /\ length (outcomes E args files w) = length files.
Proof.
  induction 1 as [|src files Hsrc _ IH]; intros w.
  - exists w. cbn. rewrite app_nil_r. repeat split; lia.
  - cbn [for_each outcomes]. unfold bind at 1, loop_body at 1, bind at 1, lift.
    rewrite (relative_to_Ok _ _ Hsrc).
    destruct (process_one_returns src (drop (length (input_dir args)) src) (out args)
                (no_rename args) (tinypng args) (arg_quality args)
                (keep_structure args) w) as (w1 & -> & Hone).
    destruct (process_one_try E src _ _ _ _ _ _ w) as [[[]|e] w2].
    + destruct Hone as (-> & Herr & l & Hl & Hout).
      destruct (IH w2) as (w' & Hrun & Herr' & Hok & Hlen).
      exists w'. split; [exact Hrun|]. cbn [err_lines successes List.filter length].
      split; [congruence|]. split; [|lia].
      rewrite Hok. unfold ok_lines. rewrite Hout, List.filter_app, List.length_app. cbn.
      rewrite Hl. unfold successes. cbn. lia.
    + destruct Hone as (-> & Hout & Herr).
      destruct (IH (snd (eprint (ERR src e) w2))) as (w' & Hrun & Herr' & Hok & Hlen).
      exists w'. split; [exact Hrun|]. cbn [err_lines successes List.filter length].
      split; [rewrite Herr', Herr, <- app_assoc; reflexivity|]. split; [|lia].
      rewrite Hok. unfold ok_lines. rewrite Hout. reflexivity.
Qed.

End BatchFacts.

(** ** Directories and discovery *)

Lemma os_mkdir_Ok p w w' :
  os_mkdir p w = (Ok tt, w') -> is_dir w' p = true /\ p <> [].
Proof.
  unfold os_mkdir. destruct p as [|x p]; [discriminate|].
  destruct (stat w (x :: p)) as [n|]; [discriminate|].
  destruct (stat w (parent (x :: p))) as [[|d]|]; try discriminate.
  intros [= <-]. split; [|discriminate].
  unfold is_dir, stat, set_fs. cbn [fs]. rewrite lookup_insert_eq. reflexivity.
Qed.

Lemma mkdir_exist_ok_Ok p w w' :
  mkdir_exist_ok p w = (Ok tt, w') -> is_dir w' p = true.
Proof.
  unfold mkdir_exist_ok. destruct (os_mkdir p w) as [[[]|e] w1] eqn:Hmk.
  - intros [= <-]. exact (proj1 (os_mkdir_Ok _ _ _ Hmk)).
  - destruct e; try discriminate;
      (destruct (is_dir w1 p) eqn:Hd; [intros [= <-]; exact Hd | discriminate]).
Qed.

Lemma mkdir_Ok p w w' : mkdir p w = (Ok tt, w') -> is_dir w' p = true.
Proof.
  unfold mkdir. rewrite <- (rev_involutive p) at 2. generalize (rev p) as rp.
  intros rp. destruct rp as [|x rp]; cbn [mkdir_parents].
  - destruct (os_mkdir (rev []) w) as [[[]|e] w1] eqn:Hmk.
    + intros [= <-]. exact (proj1 (os_mkdir_Ok _ _ _ Hmk)).
    + destruct e; try discriminate;
        (destruct (is_dir w1 (rev [])) eqn:Hd; [intros [= <-]; exact Hd | discriminate]).
  - destruct (os_mkdir (rev (x :: rp)) w) as [[[]|e] w1] eqn:Hmk.
    + intros [= <-]. exact (proj1 (os_mkdir_Ok _ _ _ Hmk)).
    + destruct e; try discriminate;
        try (destruct (is_dir w1 (rev (x :: rp))) eqn:Hd;
             [intros [= <-]; exact Hd | discriminate]).
      intros H. apply bind_Ok in H as (_ & w2 & _ & H).
      exact (mkdir_exist_ok_Ok _ _ _ H).
Qed.

Section Discovery.
Context {U : UnicodeData}.

Lemma iter_images_discovered (args : Args) (w : World) :
  iter_images (input_dir args) (recursive args) w = (Ok (discovered args w), w).
Proof.
  unfold discovered, iter_images. destruct (recursive args); reflexivity.
Qed.

Lemma discovered_fs (args : Args) (w w2 : World) :
  fs w = fs w2 -> discovered args w = discovered args w2.
Proof.
  destruct w as [f o e], w2 as [f2 o2 e2]. cbn [fs]. intros <-.
  unfold discovered, iter_images. destruct (recursive args); reflexivity.
Qed.

Lemma child_relative (p d : Path) :
  p <> [] -> parent p = d -> is_relative_to p d = true.
Proof.
  intros Hp <-. unfold is_relative_to, parent. apply bool_decide_eq_true.
  rewrite (app_removelast_last [] Hp) at 2.
  apply take_app_length.
Qed.

Lemma discovered_relative (args : Args) (w : World) :
  Forall (fun p => is_relative_to p (input_dir args) = true) (discovered args w).
Proof.
  unfold discovered, iter_images.
  destruct (recursive args); cbn; apply List.Forall_forall; intros p Hp;
    apply filter_In in Hp as [Hp _];
    destruct (is_dir w (input_dir args)); try contradiction;
    apply filter_In in Hp as [_ Hp]; apply bool_decide_eq_true in Hp as [H1 H2].
  - unfold is_relative_to. apply bool_decide_eq_true. exact H2.
  - apply child_relative; assumption.
Qed.

End Discovery.

(** ** main *)

Section MainFacts.
Context {U : UnicodeData} (E : Env).

Lemma main_fatal (args : Args) (w w1 : World) :
  ensure_dir (out args) w = (Ok tt, w1) ->
  fatal E args w1 = true ->
  exists w',
    main E args w = (Ok 1%Z, w')
    /\ fs w' = fs w1
    /\ stdout w' = stdout w1
    /\ (exists ds, ds <> [] /\ stderr w' = stderr w1 ++ ds)
    /\ (List.last (stderr w') (Text EmptyString)
        = TextPath "Erreur: dossier introuvable: " (input_dir args) EmptyString ->
        stat w1 (input_dir args) = None).
Proof.
  intros Hmk Hfatal. unfold main. unfold bind at 1. rewrite Hmk. cbv zeta.
  unfold fatal in Hfatal.
  assert (Hmissing :
             bool_decide (is_Some (stat w1 (input_dir args))) = false ->
             exists w',
               (let* _ := eprint (TextPath "Erreur: dossier introuvable: "
                                    (input_dir args) EmptyString) in sys_exit 1) w1
               = (Ok 1%Z, w')
               /\ fs w' = fs w1 /\ stdout w' = stdout w1
               /\ (exists ds, ds <> [] /\ stderr w' = stderr w1 ++ ds)
               /\ (List.last (stderr w') (Text EmptyString)
                   = TextPath "Erreur: dossier introuvable: " (input_dir args) EmptyString ->
                   stat w1 (input_dir args) = None)).
  { intros Hex. cbn. eexists. repeat split.
    - eexists. split; [|reflexivity]. discriminate.
    - intros _. apply bool_decide_eq_false in Hex.
      destruct (stat w1 (input_dir args)); [exfalso; apply Hex; eauto | reflexivity]. }
  destruct (tinypng args); cbn [andb orb] in Hfatal |- *.
  - destruct (TINIFY_AVAILABLE E); cbn [negb andb orb] in Hfatal |- *.
    + destruct (key_set (TINIFY_KEY E)); cbn [negb orb] in Hfatal |- *.
      * unfold bind at 1, exists_ at 1.
        destruct (bool_decide (is_Some (stat w1 (input_dir args)))) eqn:Hex;
          [discriminate|].
        cbn [negb]. exact (Hmissing eq_refl).
      * clear Hmissing. unfold bind, eprint, exists_, sys_exit, ret.
        destruct (bool_decide (is_Some (stat _ (joinpath (script_dir E) [lit ".env"]))));
          cbn [fs stdout stderr];
          (eexists; split; [reflexivity|]; cbn [fs stdout stderr];
           split; [reflexivity|]; split; [reflexivity|]; split;
           [eexists; (split; [|rewrite <- ?app_assoc; reflexivity]); discriminate
           |rewrite last_last; discriminate]).
    + cbn. eexists. split; [reflexivity|]. cbn [fs stdout stderr].
      split; [reflexivity|]. split; [reflexivity|]. split;
        [eexists; (split; [|reflexivity]); discriminate
        |rewrite last_last; discriminate].
  - unfold bind at 1, exists_ at 1.
    destruct (bool_decide (is_Some (stat w1 (input_dir args)))) eqn:Hex; [discriminate|].
    cbn [negb]. exact (Hmissing eq_refl).
Qed.

Lemma main_passes (args : Args) (w w1 : World) :
  ensure_dir (out args) w = (Ok tt, w1) ->
  (tinypng args && negb (TINIFY_AVAILABLE E)) = false ->
  (tinypng args && negb (key_set (TINIFY_KEY E))) = false ->
  main E args w = after_checks E args w1.
Proof.
  intros Hmk Hlib Hkey. unfold main. unfold bind at 1. rewrite Hmk. cbv zeta.
  rewrite Hlib. unfold after_checks, loop_body.
  destruct (tinypng args); [|reflexivity].
  cbn in Hkey. rewrite Hkey. reflexivity.
Qed.

Lemma after_info_run (w1 : World) :
  (if negb (AVIF_SUPPORTED E)
   then print (Text "[INFO] AVIF non disponible (installe 'pillow-avif-plugin' si tu veux l'export AVIF).")
   else ret tt) w1 = (Ok tt, after_info E w1).
Proof. unfold after_info. destruct (AVIF_SUPPORTED E); reflexivity. Qed.

Lemma after_info_frame (w1 : World) :
  fs (after_info E w1) = fs w1
  /\ stderr (after_info E w1) = stderr w1
  /\ ok_lines (after_info E w1) = ok_lines w1.
Proof.
  unfold after_info, ok_lines. destruct (AVIF_SUPPORTED E); cbn; auto.
  rewrite List.filter_app, List.length_app. cbn. repeat split. lia.
Qed.

Lemma main_not_fatal (args : Args) (w w1 : World) :
  ensure_dir (out args) w = (Ok tt, w1) ->
  fatal E args w1 = false ->
  exists w',
    main E args w = (Ok 0%Z, w')
    /\ length (outcomes E args (discovered args w1) (after_info E w1))
       = length (discovered args w1)
    /\ stderr w' = stderr w1
                   ++ err_lines (discovered args w1)
                        (outcomes E args (discovered args w1) (after_info E w1))
    /\ ok_lines w' = (ok_lines w1
                      + successes (outcomes E args (discovered args w1) (after_info E w1)))%nat
    /\ (discovered args w1 = [] ->
        w' = snd (print (Text "Aucune image trouvée.") (after_info E w1))).
Proof.
  intros Hmk Hfatal. unfold fatal in Hfatal.
  apply orb_false_elim in Hfatal as [Hfatal Hex].
  apply orb_false_elim in Hfatal as [Hlib Hkey].
  apply negb_false_iff in Hex.
  rewrite (main_passes args w w1 Hmk Hlib Hkey).
  destruct (after_info_frame w1) as (Hfs & Herr & Hok).
  unfold after_checks. unfold bind at 1, exists_ at 1. rewrite Hex. cbn [negb].
  unfold bind at 1. rewrite after_info_run.
  unfold bind at 1. rewrite iter_images_discovered.
  rewrite (discovered_fs args (after_info E w1) w1 Hfs).
  destruct (discovered args w1) as [|src files] eqn:Hfiles.
  - cbn. eexists. split; [reflexivity|]. cbn. rewrite app_nil_r.
    split; [reflexivity|]. split; [exact Herr|]. split; [|reflexivity].
    unfold ok_lines in *. cbn. rewrite List.filter_app, List.length_app. cbn.
    unfold successes. cbn. lia.
  - cbn [is_empty].
    pose proof (discovered_relative args w1) as Hrel. rewrite Hfiles in Hrel.
    destruct (batch_returns E args (src :: files) Hrel (after_info E w1))
      as (w' & Hrun & Herr' & Hok' & Hlen).
    unfold bind at 1. rewrite Hrun. exists w'. split; [reflexivity|].
    split; [exact Hlen|]. split; [congruence|]. split; [congruence|]. discriminate.
Qed.

Lemma run_Raise (args : Args) (w w1 : World) e :
  ensure_dir (out args) w = (Raise e, w1) ->
  run E args w
  = (1%Z, {| fs := fs w1; stdout := stdout w1; stderr := stderr w1 ++ [Traceback e] |}).
Proof.
  intros Hmk. unfold run, main. unfold bind at 1. rewrite Hmk. reflexivity.
Qed.

Lemma ensure_dir_streams (p : Path) (w : World) r w1 :
  ensure_dir p w = (r, w1) -> stdout w1 = stdout w /\ stderr w1 = stderr w.
Proof. intros H. pose proof (quiet_ensure_dir p w) as Hq. rewrite H in Hq. exact Hq. Qed.

Lemma is_dir_fs (w w' : World) p : fs w' = fs w -> is_dir w' p = is_dir w p.
Proof. unfold is_dir, stat. intros ->. reflexivity. Qed.

(** C6. Whatever the [try] suite of a file raises is caught by
    [process_one], reported on the error stream as a line that carries
    the path of the file, and the loop goes on: once the checks of [main]
    are passed the script exits with status 0, there is one [ERR] line
    for each file whose suite raised, in order, and one [OK] line for each
    of the others. *)
Theorem per_file_errors_do_not_abort (args : Args) (w w1 : World) :
  ensure_dir (out args) w = (Ok tt, w1) ->
  fatal E args w1 = false ->
  let files := discovered args w1 in
  let trace := outcomes E args files (after_info E w1) in
  exists w',
    run E args w = (0%Z, w')
    /\ length trace = length files
    /\ stderr w' = stderr w ++ err_lines files trace
    /\ ok_lines w' = (ok_lines w + successes trace)%nat.
Proof.
  intros Hmk Hfatal files trace.
  destruct (main_not_fatal args w w1 Hmk Hfatal) as (w' & Hmain & Hlen & Herr & Hok & _).
  destruct (ensure_dir_streams _ _ _ _ Hmk) as [Hout1 Herr1].
  exists w'. unfold run. rewrite Hmain. split; [reflexivity|].
  split; [exact Hlen|]. split; [rewrite <- Herr1; exact Herr|].
  rewrite Hok. unfold ok_lines. rewrite Hout1. reflexivity.
Qed.

(** C7, amended. Once the output directory has been created the script
    exits with a non-zero status exactly when remote compression is asked
    for and tinify is missing, or it is asked for and TINIFY_KEY is unset
    or empty, or the input directory does not exist at that point; it then
    prints a diagnostic on the error stream and touches no file.  When no
    image is found it prints its note and exits with status 0. *)
Theorem main_exit_status (args : Args) (w w1 : World) :
  ensure_dir (out args) w = (Ok tt, w1) ->
  (fst (run E args w) <> 0%Z <-> fatal E args w1 = true)
  /\ (fatal E args w1 = true ->
      exists w', run E args w = (1%Z, w')
                 /\ fs w' = fs w1 /\ stdout w' = stdout w
                 /\ exists ds, ds <> [] /\ stderr w' = stderr w ++ ds)
  /\ (fatal E args w1 = false ->
      discovered args w1 = [] ->
      run E args w
      = (0%Z, snd (print (Text "Aucune image trouvée.") (after_info E w1)))).
Proof.
  intros Hmk. destruct (ensure_dir_streams _ _ _ _ Hmk) as [Hout1 Herr1].
  destruct (fatal E args w1) eqn:Hfatal.
  - destruct (main_fatal args w w1 Hmk Hfatal) as (w' & Hmain & Hfs & Hout & Hds & _).
    unfold run. rewrite Hmain. cbn [fst]. split; [split; [reflexivity | discriminate]|].
    split; [|discriminate]. intros _. exists w'.
    rewrite <- Hout1, <- Herr1. auto.
  - destruct (main_not_fatal args w w1 Hmk Hfatal) as (w' & Hmain & _ & _ & _ & Hnone).
    unfold run. rewrite Hmain. cbn [fst].
    split; [split; [intros H; contradiction | discriminate]|].
    split; [discriminate|]. intros _ Hfiles. rewrite (Hnone Hfiles). reflexivity.
Qed.

(** C10. [main] creates the output directory, with its missing parents,
    before it looks for the input directory: a run that exits with status
    1 on the diagnostic of the missing input directory has created the
    output directory, and the check was made on the file system as
    [ensure_dir] left it. *)
Theorem output_dir_created_before_input_check (args : Args) (w w' : World) :
  run E args w = (1%Z, w') ->
  List.last (stderr w') (Text EmptyString)
  = TextPath "Erreur: dossier introuvable: " (input_dir args) EmptyString ->
  is_dir w' (out args) = true
  /\ exists w1, ensure_dir (out args) w = (Ok tt, w1)
                /\ fs w' = fs w1
                /\ stat w1 (input_dir args) = None.
Proof.
  intros Hrun Hlast.
  destruct (ensure_dir (out args) w) as [[[]|e] w1] eqn:Hmk.
  - destruct (fatal E args w1) eqn:Hfatal.
    + destruct (main_fatal args w w1 Hmk Hfatal) as (w2 & Hmain & Hfs & _ & _ & Hin).
      unfold run in Hrun. rewrite Hmain in Hrun. injection Hrun as <-.
      split.
      * rewrite (is_dir_fs w1 w2 _ Hfs). exact (mkdir_Ok _ _ _ Hmk).
      * exists w1. auto.
    + destruct (main_not_fatal args w w1 Hmk Hfatal) as (w2 & Hmain & _).
      unfold run in Hrun. rewrite Hmain in Hrun. discriminate.
  - rewrite (run_Raise args w w1 e Hmk) in Hrun. injection Hrun as <-.
    cbn [stderr] in Hlast. rewrite last_last in Hlast. discriminate.
Qed.

End MainFacts.

(** ** Files written and deleted *)

Lemma with_suffix_Ok (p : Path) (s : str) (p' : Path) :
  with_suffix p s = Ok p' -> p' = parent p ++ [root_name p ++ s].
Proof.
  unfold with_suffix, root_name.
  destruct (existsb (N.eqb SLASH) s); [discriminate|].
  destruct (negb (is_empty s) && negb (startswith DOT s) || bool_decide (s = [DOT]));
    [discriminate|].
  destruct (is_empty (name p)); [discriminate|].
  destruct (is_empty (suffix p)); intros [= <-]; reflexivity.
Qed.

Lemma with_suffix_differ (p : Path) (s1 s2 : str) (p1 p2 : Path) :
  with_suffix p s1 = Ok p1 -> with_suffix p s2 = Ok p2 -> s1 <> s2 -> p1 <> p2.
Proof.
  intros H1 H2 Hs Heq. apply with_suffix_Ok in H1, H2. subst p1 p2.
  apply app_inv_head in Heq. injection Heq as Heq.
  apply app_inv_head in Heq. contradiction.
Qed.

Lemma with_suffix_nonempty (p : Path) (s : str) (p' : Path) :
  with_suffix p s = Ok p' -> p' <> [].
Proof.
  intros H. apply with_suffix_Ok in H. subst p'.
  destruct (parent p); discriminate.
Qed.

Lemma stat_nonempty (w : World) (p : Path) : p <> [] -> stat w p = fs w !! p.
Proof. destruct p; [contradiction | reflexivity]. Qed.

Lemma write_file_frame (q : Path) d (w : World) r w' (p : Path) :
  write_file q d w = (r, w') -> q <> p -> fs w' !! p = fs w !! p.
Proof.
  unfold write_file. intros H Hne.
  destruct (stat w q) as [[|?]|]; destruct (stat w (parent q)) as [[|?]|];
    injection H as <- <-; try reflexivity;
    cbn [fs set_fs]; apply lookup_insert_ne; exact Hne.
Qed.

Lemma write_file_Ok (q : Path) d (w w' : World) :
  write_file q d w = (Ok tt, w') -> fs w' = <[q := File d]> (fs w).
Proof.
  unfold write_file.
  destruct (stat w q) as [[|?]|]; destruct (stat w (parent q)) as [[|?]|];
    intros [= <-]; reflexivity.
Qed.

Lemma unlink_Ok (p : Path) (w w' : World) :
  unlink p true w = (Ok tt, w') ->
  stat w' p = None /\ forall q, fs w !! q = None -> fs w' !! q = None.
Proof.
  unfold unlink. destruct p as [|x p]; [discriminate|].
  destruct (stat w (x :: p)) as [[|d]|] eqn:Hst; [discriminate| |]; intros [= <-].
  - cbn [stat fs set_fs]. split; [apply lookup_delete_eq|].
    intros q Hq. rewrite lookup_delete. destruct (decide _); [reflexivity | exact Hq].
  - split; [exact Hst | auto].
Qed.

(** Deleting a file that is not there, with [missing_ok], is no error
    and changes nothing. *)
Lemma unlink_absent (p : Path) (w : World) :
  stat w p = None -> unlink p true w = (Ok tt, w).
Proof. unfold unlink. intros ->. reflexivity. Qed.

Lemma read_file_world (p : Path) (w : World) r w' : read_file p w = (r, w') -> w' = w.
Proof.
  unfold read_file. destruct (stat w p) as [[|?]|]; intros [= _ <-]; reflexivity.
Qed.

Lemma Image_open_world (p : Path) (w : World) r w' : Image_open p w = (r, w') -> w' = w.
Proof.
  unfold Image_open, bind. destruct (read_file p w) as [[d|e] w1] eqn:Hr.
  - apply read_file_world in Hr. subst w1. destruct d; intros [= _ <-]; reflexivity.
  - apply read_file_world in Hr. subst w1. intros [= _ <-]. reflexivity.
Qed.

Section FilesFacts.
Context (E : Env).

(** What [save_formats_from_image] returns and writes when it returns:
    JPEG and WebP always, AVIF when the plugin is there, each at the path
    that [with_suffix] gives, and the mapping lists just these. *)
Lemma save_formats_from_image_Ok img base q (w w' : World) written :
  save_formats_from_image E img base q w = (Ok written, w') ->
  exists jpg webp,
    with_suffix base (lit ".jpg") = Ok jpg
    /\ with_suffix base (lit ".webp") = Ok webp
    /\ exists djpg dwebp,
        if AVIF_SUPPORTED E then
          exists avif davif,
            with_suffix base (lit ".avif") = Ok avif
            /\ written = [("jpg"%string, jpg); ("webp"%string, webp); ("avif"%string, avif)]
            /\ fs w' = <[avif := File davif]>
                         (<[webp := File dwebp]> (<[jpg := File djpg]> (fs w)))
        else
          written = [("jpg"%string, jpg); ("webp"%string, webp)]
          /\ fs w' = <[webp := File dwebp]> (<[jpg := File djpg]> (fs w)).
Proof.
  unfold save_formats_from_image. cbv zeta. intros H.
  apply bind_Ok in H as (jpg & w1 & Hjpg & H). apply lift_Ok in Hjpg as [Hjpg ->].
  apply bind_Ok in H as ([] & w2 & Hs1 & H). apply write_file_Ok in Hs1.
  apply bind_Ok in H as (webp & w3 & Hwebp & H). apply lift_Ok in Hwebp as [Hwebp ->].
  apply bind_Ok in H as ([] & w4 & Hs2 & H). apply write_file_Ok in Hs2.
  exists jpg, webp. split; [exact Hjpg|]. split; [exact Hwebp|].
  do 2 eexists.
  destruct (AVIF_SUPPORTED E).
  - apply bind_Ok in H as (avif & w5 & Havif & H). apply lift_Ok in Havif as [Havif ->].
    apply bind_Ok in H as ([] & w6 & Hs3 & H). apply write_file_Ok in Hs3.
    injection H as <- <-. exists avif. eexists.
    split; [exact Havif|]. split; [reflexivity|]. rewrite Hs3, Hs2, Hs1. reflexivity.
  - injection H as <- <-. split; [reflexivity|]. rewrite Hs2, Hs1. reflexivity.
Qed.

Lemma save_formats_from_image_frame img base q (w w' : World) written (p : Path) :
  save_formats_from_image E img base q w = (Ok written, w') ->
  (forall ext, In ext [".jpg"; ".webp"; ".avif"]%string ->
               with_suffix base (lit ext) <> Ok p) ->
  fs w' !! p = fs w !! p.
Proof.
  intros H Hp. apply save_formats_from_image_Ok in H
    as (jpg & webp & Hjpg & Hwebp & djpg & dwebp & H).
  assert (jpg <> p) by (intros ->; apply (Hp ".jpg"%string); cbn; auto).
  assert (webp <> p) by (intros ->; apply (Hp ".webp"%string); cbn; auto).
  destruct (AVIF_SUPPORTED E).
  - destruct H as (avif & davif & Havif & _ & ->).
    assert (avif <> p) by (intros ->; apply (Hp ".avif"%string); cbn; auto).
    rewrite !lookup_insert_ne by assumption. reflexivity.
  - destruct H as [_ ->]. rewrite !lookup_insert_ne by assumption. reflexivity.
Qed.

End FilesFacts.

(** ** Where an extension is appended *)

Lemma rfind_absent c (s : str) :
  forallb (fun x => negb (N.eqb x c)) s = true -> rfind c s = None.
Proof.
  induction s as [|x s IH]; [reflexivity|]. cbn [forallb rfind]. intros H.
  apply andb_prop in H as [Hx Hs]. rewrite (IH Hs).
  apply negb_true_iff in Hx. rewrite Hx. reflexivity.
Qed.

Lemma name_joinpath (dir : Path) (n : str) : name (joinpath dir [n]) = n.
Proof. unfold name, joinpath. apply last_last. Qed.

Lemma parent_joinpath (dir : Path) (n : str) : parent (joinpath dir [n]) = dir.
Proof. unfold parent, joinpath. apply removelast_last. Qed.

(** On a name without a dot [with_suffix] appends. *)
Lemma with_suffix_appends (dir : Path) (n ext : str) :
  n <> [] ->
  forallb (fun x => negb (N.eqb x DOT)) n = true ->
  In ext (map lit [".jpg"; ".webp"; ".avif"; ".tmp.png"; ".tmp_compressed.png"]%string) ->
  with_suffix (joinpath dir [n]) ext = Ok (joinpath dir [n ++ ext]).
Proof.
  intros Hn Hdot Hext. unfold with_suffix, suffix, suffix_index.
  rewrite name_joinpath, parent_joinpath, (rfind_absent _ _ Hdot).
  destruct n as [|c n]; [contradiction|].
  cbn in Hext. destruct Hext as [<-|[<-|[<-|[<-|[<-|[]]]]]]; reflexivity.
Qed.

Section SanitizedNames.
Context {U : UnicodeData}.

Lemma sanitize_filename_word (x : str) :
  sanitize_filename x <> [] /\ forallb word_class (sanitize_filename x) = true.
Proof.
  rewrite sanitize_filename_steps.
  pose proof (tidy_word_class _ (to_words_word_class x)) as Hw.
  destruct (tidy (to_words x)); [split; [discriminate | reflexivity]|].
  split; [discriminate | exact Hw].
Qed.

(** With renaming on, the paths handed to the encoders are the base path
    followed by the extension. *)
Lemma sanitized_base_appends (dir : Path) (x ext : str) :
  In ext (map lit [".jpg"; ".webp"; ".avif"; ".tmp.png"; ".tmp_compressed.png"]%string) ->
  with_suffix (joinpath dir [sanitize_filename x]) ext
  = Ok (joinpath dir [sanitize_filename x ++ ext]).
Proof.
  destruct (sanitize_filename_word x) as [Hne Hw]. intros Hext.
  apply with_suffix_appends; [exact Hne | | exact Hext].
  apply word_class_not; [reflexivity | exact Hw].
Qed.

End SanitizedNames.

(** ** The two parts of the round trip *)

Lemma keeps_absent_bind {A B} p (m : M A) (k : A -> M B) :
  keeps_absent p m -> (forall a, keeps_absent p (k a)) -> keeps_absent p (bind m k).
Proof.
  intros Hm Hk w Hw. unfold bind. specialize (Hm w Hw).
  destruct (m w) as [[a|e] w1]; cbn [snd] in *; [|exact Hm].
  exact (Hk a w1 Hm).
Qed.

Lemma keeps_absent_bind_lift {A B} p (r : result A) (k : A -> M B) :
  (forall a, r = Ok a -> keeps_absent p (k a)) -> keeps_absent p (bind (lift r) k).
Proof.
  intros Hk w Hw. unfold bind, lift. destruct r as [a|e]; [|exact Hw].
  exact (Hk a eq_refl w Hw).
Qed.

Lemma keeps_absent_ret {A} p (a : A) : keeps_absent p (ret a).
Proof. intros w Hw. exact Hw. Qed.

Lemma keeps_absent_write_file p q d : q <> p -> keeps_absent p (write_file q d).
Proof.
  intros Hne w Hw.
  destruct (write_file q d w) as [r w'] eqn:Hrun. cbn [snd].
  rewrite (write_file_frame q d w r w' p Hrun Hne). exact Hw.
Qed.

Lemma keeps_absent_unlink p q b : keeps_absent p (unlink q b).
Proof.
  intros w Hw. unfold unlink.
  destruct (stat w q) as [[|d]|]; [exact Hw| |destruct b; exact Hw].
  cbn [snd fs set_fs]. rewrite lookup_delete.
  destruct (decide _); [reflexivity | exact Hw].
Qed.

Lemma keeps_absent_Image_open p q : keeps_absent p (Image_open q).
Proof.
  intros w Hw. destruct (Image_open q w) as [r w'] eqn:Hrun.
  apply Image_open_world in Hrun. subst w'. exact Hw.
Qed.

Section RoundTripFacts.
Context (E : Env).

Lemma keeps_absent_save_formats_from_image p img base q :
  (forall ext, In ext [".jpg"; ".webp"; ".avif"]%string ->
               with_suffix base (lit ext) <> Ok p) ->
  keeps_absent p (save_formats_from_image E img base q).
Proof.
  intros Hp. unfold save_formats_from_image, Image_save. cbv zeta.
  apply keeps_absent_bind_lift. intros jpg Hjpg.
  apply keeps_absent_bind.
  { apply keeps_absent_write_file. intros ->. apply (Hp ".jpg"%string); cbn; auto. }
  intros _. apply keeps_absent_bind_lift. intros webp Hwebp.
  apply keeps_absent_bind.
  { apply keeps_absent_write_file. intros ->. apply (Hp ".webp"%string); cbn; auto. }
  intros _. destruct (AVIF_SUPPORTED E); [|apply keeps_absent_ret].
  apply keeps_absent_bind_lift. intros avif Havif.
  apply keeps_absent_bind; [|intros _; apply keeps_absent_ret].
  apply keeps_absent_write_file. intros ->. apply (Hp ".avif"%string); cbn; auto.
Qed.

(** Once the temporary PNG is gone, nothing in the second part of the
    round trip brings it back, whether that part returns or raises. *)
Lemma round_trip_receive_keeps_absent base tmp_png compressed_png q :
  with_suffix base (lit ".tmp.png") = Ok tmp_png ->
  keeps_absent tmp_png (round_trip_receive E compressed_png base q).
Proof.
  intros Htmp. unfold round_trip_receive.
  apply keeps_absent_bind.
  - apply keeps_absent_bind; [apply keeps_absent_Image_open|]. intros cim.
    apply keeps_absent_save_formats_from_image. intros ext Hext Heq.
    refine (with_suffix_differ _ _ _ _ _ Heq Htmp _ eq_refl).
    cbn in Hext. destruct Hext as [<-|[<-|[<-|[]]]]; discriminate.
  - intros written. apply keeps_absent_bind; [apply keeps_absent_unlink|].
    intros _. apply keeps_absent_ret.
Qed.

(** When the first part returns, the temporary PNG has been deleted. *)
Lemma round_trip_send_Ok img base (w w3 : World) tmp_png compressed_png :
  round_trip_send E img base w = (Ok (tmp_png, compressed_png), w3) ->
  with_suffix base (lit ".tmp.png") = Ok tmp_png
  /\ with_suffix base (lit ".tmp_compressed.png") = Ok compressed_png
  /\ fs w3 !! tmp_png = None.
Proof.
  unfold round_trip_send. intros H.
  apply bind_Ok in H as (tmp & w1 & Htmp & H). apply lift_Ok in Htmp as [Htmp ->].
  apply bind_Ok in H as ([] & w2 & _ & H).
  apply bind_Ok in H as (comp & w2' & Hcomp & H). apply lift_Ok in Hcomp as [Hcomp ->].
  apply bind_Ok in H as ([] & w4 & _ & H).
  apply bind_Ok in H as ([] & w5 & Hun & H).
  injection H as <- <- <-.
  apply unlink_Ok in Hun as [Hgone _].
  rewrite stat_nonempty in Hgone by exact (with_suffix_nonempty _ _ _ Htmp).
  auto.
Qed.

(** When the second part returns, the compressed PNG has been deleted. *)
Lemma round_trip_receive_Ok base compressed_png q (w3 w4 : World) written :
  compressed_png <> [] ->
  round_trip_receive E compressed_png base q w3 = (Ok written, w4) ->
  fs w4 !! compressed_png = None.
Proof.
  unfold round_trip_receive. intros Hne H.
  apply bind_Ok in H as (written' & w5 & _ & H).
  apply bind_Ok in H as ([] & w6 & Hun & H).
  injection H as _ <-.
  apply unlink_Ok in Hun as [Hgone _].
  rewrite stat_nonempty in Hgone by exact Hne. exact Hgone.
Qed.

End RoundTripFacts.

(** ** The try suite as a sequence of stages *)

Lemma bind_assoc {A B C} (m : M A) (f : A -> M B) (g : B -> M C) (w : World) :
  bind (bind m f) g w = bind m (fun a => bind (f a) g) w.
Proof. unfold bind. destruct (m w) as [[a|e] w1]; reflexivity. Qed.

Lemma bind_ext {A B} (m : M A) (k1 k2 : A -> M B) (w : World) :
  (forall a w1, k1 a w1 = k2 a w1) -> bind m k1 w = bind m k2 w.
Proof. intros H. unfold bind. destruct (m w) as [[a|e] w1]; [apply H | reflexivity]. Qed.

Section Staging.
Context {U : UnicodeData} (E : Env).

Lemma round_trip_inline img base q (w : World) :
  (let* tmp_png := lift (with_suffix base (lit ".tmp.png")) in
   let* _ := Image_save img tmp_png
               {| format := "PNG"; quality := None; optimize := true;
                  method := None; dpi := Some TARGET_DPI |} in
   let* compressed_png := lift (with_suffix base (lit ".tmp_compressed.png")) in
   let* _ := tinify_compress_file E tmp_png compressed_png in
   let* _ := unlink tmp_png true in
   let* written :=
     (let* cim := Image_open compressed_png in
      let cim := convert cim "RGB" in
      save_formats_from_image E cim base q) in
   let* _ := unlink compressed_png true in
   ret written) w
  = round_trip E img base q w.
Proof.
  unfold round_trip, round_trip_send, round_trip_receive.
  rewrite bind_assoc. apply bind_ext. intros tmp w1.
  rewrite bind_assoc. apply bind_ext. intros [] w2.
  rewrite bind_assoc. apply bind_ext. intros comp w3.
  rewrite bind_assoc. apply bind_ext. intros [] w4.
  rewrite bind_assoc. apply bind_ext. intros [] w5.
  reflexivity.
Qed.

Lemma process_one_try_staged src rel out_dir nr q ks (w : World) :
  process_one_try E src rel out_dir nr true q ks w
  = (let* (orientation, img_resized) :=
       (let* im := Image_open src in
        let orientation :=
          if is_landscape im then "landscape"%string else "portrait"%string in
        let* img_resized := lift (resize_preserve_ratio im TARGET_SIZE) in
        ret (orientation, img_resized)) in
     let* _ := ensure_dir (joinpath out_dir (if ks then parent rel else [])) in
     let* written := round_trip E img_resized (base_out src rel out_dir nr ks) q in
     print (OK (name src) (if nr then stem src else sanitize_filename (stem src))
              orientation (map (fun kv => name (snd kv)) written))) w.
Proof.
  unfold process_one_try, base_out. cbv zeta.
  apply bind_ext. intros [orientation img_resized] w1.
  apply bind_ext. intros [] w2.
  unfold bind at 1. rewrite round_trip_inline. reflexivity.
Qed.

End Staging.

(** ** The remote round trip *)

Section RoundTrip.
Context {U : UnicodeData} (E : Env).

(** C8, amended. In the round trip through the service the temporary PNG
    is deleted once the service has answered, and it stays deleted
    whatever the later steps do; the compressed PNG is deleted once the
    output formats have been written.  So when the [try] suite of a file
    returns, neither is on disk.  Deleting the temporary PNG is no error
    when it is already absent. *)
Theorem round_trip_cleanup (src rel out_dir : Path) (nr : bool) (q : Z) (ks : bool)
    (w w' : World) :
  process_one_try E src rel out_dir nr true q ks w = (Ok tt, w') ->
  exists tmp_png compressed_png,
    with_suffix (base_out src rel out_dir nr ks) (lit ".tmp.png") = Ok tmp_png
    /\ with_suffix (base_out src rel out_dir nr ks) (lit ".tmp_compressed.png")
       = Ok compressed_png
    /\ stat w' tmp_png = None
    /\ stat w' compressed_png = None
    /\ (forall img w0 w3,
          round_trip_send E img (base_out src rel out_dir nr ks) w0
          = (Ok (tmp_png, compressed_png), w3) ->
          stat w3 tmp_png = None
          /\ forall outcome w4,
               round_trip_receive E compressed_png (base_out src rel out_dir nr ks) q w3
               = (outcome, w4) ->
               stat w4 tmp_png = None)
    /\ forall w0, stat w0 tmp_png = None -> unlink tmp_png true w0 = (Ok tt, w0).
Proof.
  unfold process_one_try, base_out. cbv zeta. intros H.
  apply bind_Ok in H as ([orientation img] & wa & _ & H).
  apply bind_Ok in H as ([] & wb & _ & H).
  apply bind_Ok in H as (written & wc & H & Hprint).
  assert (Hfs : fs w' = fs wc) by (injection Hprint as <-; reflexivity).
  clear Hprint.
  apply bind_Ok in H as (tmp & w1 & Htmp & H). apply lift_Ok in Htmp as [Htmp ->].
  apply bind_Ok in H as ([] & w2 & _ & H).
  apply bind_Ok in H as (comp & w3 & Hcomp & H). apply lift_Ok in Hcomp as [Hcomp ->].
  apply bind_Ok in H as ([] & w4 & _ & H).
  apply bind_Ok in H as ([] & w5 & Hun1 & H).
  apply bind_Ok in H as (written' & w6 & Hemit & H).
  apply bind_Ok in H as ([] & w7 & Hun2 & H).
  injection H as _ <-.
  apply bind_Ok in Hemit as (cim & w5' & Hopen & Hemit).
  apply Image_open_world in Hopen. subst w5'.
  pose proof (with_suffix_nonempty _ _ _ Htmp) as Htmp_ne.
  pose proof (with_suffix_nonempty _ _ _ Hcomp) as Hcomp_ne.
  apply unlink_Ok in Hun1 as [Hgone1 _]. apply unlink_Ok in Hun2 as [Hgone2 Hkeep].
  exists tmp, comp. split; [exact Htmp|]. split; [exact Hcomp|].
  rewrite !stat_nonempty in * by assumption. rewrite Hfs.
  split; [|split; [exact Hgone2|split]].
  - apply Hkeep.
    rewrite (save_formats_from_image_frame E _ _ _ _ _ _ tmp Hemit); [exact Hgone1|].
    intros ext Hext Heq.
    refine (with_suffix_differ _ _ _ _ _ Heq Htmp _ eq_refl).
    cbn in Hext. destruct Hext as [<-|[<-|[<-|[]]]]; discriminate.
  - intros img0 w0 w8 Hsend.
    apply round_trip_send_Ok in Hsend as (_ & _ & Hgone).
    split; [rewrite stat_nonempty by assumption; exact Hgone|].
    intros outcome w9 Hreceive. rewrite stat_nonempty by assumption.
    pose proof (round_trip_receive_keeps_absent E _ _ comp q Htmp w8 Hgone) as Hk.
    unfold base_out in Hreceive. rewrite Hreceive in Hk. exact Hk.
  - intros w0 H0. apply unlink_absent. exact H0.
Qed.

End RoundTrip.

(** ** Runs on concrete worlds *)

#[local] Existing Instance Latin1.unicodedata.

Lemma per_file_errors_do_not_abort_witness :
  let args := Scenario.args [lit "in"] [lit "out"] false false in
  let r := run Scenario.env args Scenario.batch in
  (fst r = 0%Z
   /\ stderr (snd r) = [ERR [lit "in"; lit "b.jpg"] UnidentifiedImageError]
   /\ ok_lines (snd r) = 2%nat)
  /\ exists w',
      run Scenario.env args Scenario.batch = (0%Z, w')
      /\ length (outcomes Scenario.env args
                   (discovered args (snd (ensure_dir (out args) Scenario.batch)))
                   (after_info Scenario.env (snd (ensure_dir (out args) Scenario.batch))))
         = length (discovered args (snd (ensure_dir (out args) Scenario.batch)))
      /\ stderr w'
         = stderr Scenario.batch
           ++ err_lines (discovered args (snd (ensure_dir (out args) Scenario.batch)))
                (outcomes Scenario.env args
                   (discovered args (snd (ensure_dir (out args) Scenario.batch)))
                   (after_info Scenario.env (snd (ensure_dir (out args) Scenario.batch))))
      /\ ok_lines w'
         = (ok_lines Scenario.batch
            + successes
                (outcomes Scenario.env args
                   (discovered args (snd (ensure_dir (out args) Scenario.batch)))
                   (after_info Scenario.env (snd (ensure_dir (out args) Scenario.batch)))))%nat.
Proof.
  split; [vm_compute; repeat split; reflexivity|].
  apply (per_file_errors_do_not_abort Scenario.env
           (Scenario.args [lit "in"] [lit "out"] false false) Scenario.batch
           (snd (ensure_dir [lit "out"] Scenario.batch)));
    vm_compute; reflexivity.
Defined.

Lemma main_exit_status_witness :
  let args := Scenario.args [lit "nowhere"] [lit "out"] false true in
  let w1 := snd (ensure_dir (out args) Scenario.bare) in
  (fst (run Scenario.env args Scenario.bare) <> 0%Z <-> fatal Scenario.env args w1 = true)
  /\ (fatal Scenario.env args w1 = true ->
      exists w', run Scenario.env args Scenario.bare = (1%Z, w')
                 /\ fs w' = fs w1 /\ stdout w' = stdout Scenario.bare
                 /\ exists ds, ds <> [] /\ stderr w' = stderr Scenario.bare ++ ds)
  /\ (fatal Scenario.env args w1 = false ->
      discovered args w1 = [] ->
      run Scenario.env args Scenario.bare
      = (0%Z, snd (print (Text "Aucune image trouvée.") (after_info Scenario.env w1)))).
Proof.
  apply (main_exit_status Scenario.env
           (Scenario.args [lit "nowhere"] [lit "out"] false true) Scenario.bare
           (snd (ensure_dir [lit "out"] Scenario.bare))).
  vm_compute. reflexivity.
Defined.

(** C7, as stated, fails.  With [--out] inside an input directory that
    does not exist, creating the output directory creates the input
    directory too, and the script exits with status 0; and when a regular
    file is in the place of the output directory the script exits with
    status 1 on an uncaught [FileExistsError], though the input directory
    exists and no remote compression is asked for. *)
Lemma missing_input_directory_exit_zero :
  (let args := Scenario.args [lit "in"] [lit "in"; lit "out"] false false in
   let w := Scenario.world [] in
   stat w (input_dir args) = None
   /\ run Scenario.env args w
      = (0%Z,
         {| fs := list_to_map [([lit "in"], Dir); ([lit "in"; lit "out"], Dir)];
            stdout := [Text "[INFO] AVIF non disponible (installe 'pillow-avif-plugin' si tu veux l'export AVIF).";
                       Text "Aucune image trouvée."];
            stderr := [] |}))
  /\ (let args := Scenario.args [] [lit "out"] false false in
      is_dir Scenario.occupied (input_dir args) = true
      /\ tinypng args = false
      /\ run Scenario.env args Scenario.occupied
         = (1%Z,
            {| fs := fs Scenario.occupied; stdout := [];
               stderr := [Traceback FileExistsError] |})).
Proof. vm_compute. repeat split; reflexivity. Qed.

Lemma output_dir_created_before_input_check_witness :
  let args := Scenario.args [lit "nowhere"] [lit "site"; lit "out"] false false in
  let w' := snd (run Scenario.env args (Scenario.world [])) in
  (is_dir w' [lit "site"] = true /\ stat (Scenario.world []) [lit "site"; lit "out"] = None)
  /\ is_dir w' (out args) = true
  /\ exists w1, ensure_dir (out args) (Scenario.world []) = (Ok tt, w1)
                /\ fs w' = fs w1
                /\ stat w1 (input_dir args) = None.
Proof.
  split; [vm_compute; split; reflexivity|].
  apply (output_dir_created_before_input_check Scenario.env
           (Scenario.args [lit "nowhere"] [lit "site"; lit "out"] false false)
           (Scenario.world []));
    vm_compute; reflexivity.
Defined.

Lemma round_trip_cleanup_witness :
  let src := [lit "in"; lit "a.png"] in
  let r := process_one_try Scenario.env src [lit "a.png"] [lit "out"] false true 85 false
             Scenario.batch in
  (fst r = Ok tt
   /\ is_file (snd r) [lit "out"; lit "a.jpg"] = true
   /\ is_file (snd r) [lit "out"; lit "a.webp"] = true
   /\ length (map_to_list (fs (snd r))) = 7%nat)
  /\ exists tmp_png compressed_png,
      with_suffix (base_out src [lit "a.png"] [lit "out"] false false) (lit ".tmp.png")
      = Ok tmp_png
      /\ with_suffix (base_out src [lit "a.png"] [lit "out"] false false)
           (lit ".tmp_compressed.png") = Ok compressed_png
      /\ stat (snd r) tmp_png = None
      /\ stat (snd r) compressed_png = None
      /\ (forall img w0 w3,
            round_trip_send Scenario.env img
              (base_out src [lit "a.png"] [lit "out"] false false) w0
            = (Ok (tmp_png, compressed_png), w3) ->
            stat w3 tmp_png = None
            /\ forall outcome w4,
                 round_trip_receive Scenario.env compressed_png
                   (base_out src [lit "a.png"] [lit "out"] false false) 85 w3
                 = (outcome, w4) ->
                 stat w4 tmp_png = None)
      /\ forall w0, stat w0 tmp_png = None -> unlink tmp_png true w0 = (Ok tt, w0).
Proof.
  split; [vm_compute; repeat split; reflexivity|].
  apply (round_trip_cleanup Scenario.env [lit "in"; lit "a.png"] [lit "a.png"]
           [lit "out"] false 85 false Scenario.batch).
  vm_compute. reflexivity.
Defined.

(** C8, as stated, fails.  When writing the JPEG raises (here [a.jpg] is
    a directory) the compressed PNG has been decoded, the temporary PNG
    is gone, and the compressed PNG stays on disk. *)
Lemma compressed_png_left_behind :
  let src := [lit "in"; lit "a.png"] in
  let r := process_one Scenario.env src [lit "a.png"] [lit "out"] false true 85 false
             Scenario.blocked in
  fst r = Ok tt
  /\ stderr (snd r) = [ERR src IsADirectoryError]
  /\ stat (snd r) [lit "out"; lit "a.tmp.png"] = None
  /\ is_file (snd r) [lit "out"; lit "a.tmp_compressed.png"] = true
  /\ fst (Image_open [lit "out"; lit "a.tmp_compressed.png"] (snd r))
     = Ok {| mode := "RGB"; width := 3333; height := 2499;
             px := Resampled "LANCZOS" (Converted "RGB" (Bitmap 1)) |}.
Proof. vm_compute. repeat split; reflexivity. Qed.

(** C4. With [--no-rename] the source [photo.v2.png] has the stem
    [photo.v2], and the files written are [photo.jpg] and [photo.webp]:
    [with_suffix] takes [.v2] for a suffix and replaces it. *)
Theorem no_rename_dotted_stem :
  let args := Scenario.args [lit "in"] [lit "out"] true false in
  let r := run Scenario.env args Scenario.dotted in
  stem [lit "in"; lit "photo.v2.png"] = lit "photo.v2"
  /\ fst r = 0%Z
  /\ stdout (snd r)
     = [Text "[INFO] AVIF non disponible (installe 'pillow-avif-plugin' si tu veux l'export AVIF).";
        OK (lit "photo.v2.png") (lit "photo.v2") "landscape"
          [lit "photo.jpg"; lit "photo.webp"]]
  /\ is_file (snd r) [lit "out"; lit "photo.jpg"] = true
  /\ is_file (snd r) [lit "out"; lit "photo.webp"] = true
  /\ stat (snd r) [lit "out"; lit "photo.v2.jpg"] = None
  /\ stat (snd r) [lit "out"; lit "photo.v2.webp"] = None.
Proof. vm_compute. repeat split; reflexivity. Qed.

(** C5. For the base path [out/photo.v2] the JPEG and the WebP are
    written at [out/photo.jpg] and [out/photo.webp], and nothing at
    [out/photo.v2.jpg] or [out/photo.v2.webp]. *)
Theorem save_formats_dotted_base :
  let img := {| mode := "RGB"; width := 3333; height := 2499; px := Bitmap 1 |} in
  let r := save_formats_from_image Scenario.env img [lit "out"; lit "photo.v2"] 85
             Scenario.bare in
  fst r = Ok [("jpg"%string, [lit "out"; lit "photo.jpg"]);
              ("webp"%string, [lit "out"; lit "photo.webp"])]
  /\ is_file (snd r) [lit "out"; lit "photo.jpg"] = true
  /\ is_file (snd r) [lit "out"; lit "photo.webp"] = true
  /\ stat (snd r) [lit "out"; lit "photo.v2.jpg"] = None
  /\ stat (snd r) [lit "out"; lit "photo.v2.webp"] = None.
Proof. vm_compute. repeat split; reflexivity. Qed.

Lemma resize_preserve_ratio_opaque_witness :
  let img := {| mode := "RGBA"; width := 600; height := 800; px := Bitmap 2 |} in
  let out :=
    {| mode := "RGB"; width := 2499; height := 3333;
       px := Resampled "LANCZOS"
               (Converted "RGB"
                  (AlphaComposite (Solid 255 255 255 255)
                     (Converted "RGBA" (Bitmap 2)))) |} in
  resize_preserve_ratio img TARGET_SIZE = Ok out /\ mode out = "RGB"%string.
Proof.
  assert (H : resize_preserve_ratio
                {| mode := "RGBA"; width := 600; height := 800; px := Bitmap 2 |}
                TARGET_SIZE
              = Ok {| mode := "RGB"; width := 2499; height := 3333;
                      px := Resampled "LANCZOS"
                              (Converted "RGB"
                                 (AlphaComposite (Solid 255 255 255 255)
                                    (Converted "RGBA" (Bitmap 2)))) |})
    by (vm_compute; reflexivity).
  split; [exact H|].
  exact (proj2 (proj2 (proj2 (proj2
           (resize_preserve_ratio_opaque
              {| mode := "RGBA"; width := 600; height := 800; px := Bitmap 2 |}
              TARGET_SIZE)))) _ H).
Defined.

(** * Further properties *)

(** ** The shape of a sanitized name *)

Lemma no_trail_rstrip (u : str) : no_trail (rstrip UNDERSCORE u) = true.
Proof.
  unfold no_trail. rewrite <- (rev_involutive u) at 1.
  rewrite <- rstrip_rev, rev_involutive. apply no_lead_lstrip.
Qed.

Lemma rstrip_no_trail (u : str) : no_trail u = true -> rstrip UNDERSCORE u = u.
Proof.
  unfold no_trail. intros H. rewrite <- (rev_involutive u) at 1.
  rewrite <- rstrip_rev, (lstrip_no_lead _ H). apply rev_involutive.
Qed.

Lemma tidy_shape (s : str) :
  nodouble (tidy s) = true /\ no_lead (tidy s) = true /\ no_trail (tidy s) = true.
Proof.
  rewrite tidy_collapse. split; [|split].
  - apply nodouble_rstrip, nodouble_lstrip, collapse_nodouble.
  - apply no_lead_rstrip, no_lead_lstrip.
  - apply no_trail_rstrip.
Qed.

Lemma tidy_slug (y : str) : is_slug y = true -> tidy y = y.
Proof.
  unfold is_slug. intros H.
  apply andb_prop in H as [H Ht]. apply andb_prop in H as [H Hl].
  apply andb_prop in H as [_ Hn].
  rewrite tidy_collapse, (collapse_id _ Hn), (lstrip_no_lead _ Hl).
  apply rstrip_no_trail, Ht.
Qed.

Section SlugFacts.
Context {U : UnicodeData}.

(** X1. Whatever the input and whatever the Unicode database answers,
    the name returned is a slug: not empty, made of [[a-z0-9_]] only,
    without doubled, leading or trailing underscores. *)
Theorem sanitize_filename_is_slug (x : str) : is_slug (sanitize_filename x) = true.
Proof.
  rewrite sanitize_filename_steps.
  pose proof (tidy_word_class _ (to_words_word_class x)) as Hw.
  destruct (tidy_shape (to_words x)) as (Hn & Hl & Ht).
  unfold is_slug.
  destruct (tidy (to_words x)) as [|c t] eqn:Htidy; [reflexivity|].
  cbn [or_image is_empty negb andb]. rewrite Hw, Hn, Hl, Ht. reflexivity.
Qed.

(** X2. The names the function leaves unchanged are exactly the slugs. *)
Theorem sanitize_filename_fixed_points `{!UnicodeLaws U} (y : str) :
  sanitize_filename y = y <-> is_slug y = true.
Proof.
  split.
  - intros <-. apply sanitize_filename_is_slug.
  - intros Hy. rewrite sanitize_filename_steps.
    assert (Hw : forallb word_class y = true).
    { pose proof Hy as H. unfold is_slug in H.
      do 3 (apply andb_prop in H as [H _]).
      apply andb_prop in H as [_ H]. exact H. }
    rewrite (to_words_stable y Hw), (tidy_slug y Hy).
    destruct y; [discriminate | reflexivity].
Qed.

End SlugFacts.

Lemma sanitize_filename_fixed_points_witness :
  is_slug (lit "summer_2024") = true
  /\ (sanitize_filename (U := Latin1.unicodedata) (lit "summer_2024") = lit "summer_2024"
      <-> is_slug (lit "summer_2024") = true)
  /\ (sanitize_filename (U := Latin1.unicodedata) (lit "Summer 2024") = lit "Summer 2024"
      <-> is_slug (lit "Summer 2024") = true).
Proof.
  split; [reflexivity|]. split.
  - exact (sanitize_filename_fixed_points (U := Latin1.unicodedata)
             (UnicodeLaws0 := Latin1_laws) (lit "summer_2024")).
  - exact (sanitize_filename_fixed_points (U := Latin1.unicodedata)
             (UnicodeLaws0 := Latin1_laws) (lit "Summer 2024")).
Defined.

(** ** Names that collide *)

Lemma separators_first_step (a b : char) (x : str) :
  In (a, b) [(HYPHEN, SPACE); (SPACE, HYPHEN); (HYPHEN, UNDERSCORE); (SPACE, UNDERSCORE)] ->
  replace SPACE UNDERSCORE (replace HYPHEN UNDERSCORE (replace a b x))
  = replace SPACE UNDERSCORE (replace HYPHEN UNDERSCORE x).
Proof.
  intros Hab. unfold replace. rewrite !map_map. apply map_ext. intros c.
  cbn in Hab. destruct Hab as [[= <- <-]|[[= <- <-]|[[= <- <-]|[[= <- <-]|[]]]]];
    unfold HYPHEN, SPACE, UNDERSCORE;
    (destruct (N.eqb_spec c 45) as [->|H1]; [reflexivity|]);
    (destruct (N.eqb_spec c 32) as [->|H2]; [reflexivity|]);
    apply N.eqb_neq in H1, H2;
    repeat (progress (rewrite ?H1, ?H2; cbn)); reflexivity.
Qed.

Section Collisions.
Context {U : UnicodeData}.

(** X3. Hyphens, spaces and underscores are interchangeable: swapping
    one separator for another in a stem does not change its sanitized
    name, so such stems share their output files. *)
Theorem sanitize_filename_separators (x : str) :
  sanitize_filename (replace HYPHEN SPACE x) = sanitize_filename x
  /\ sanitize_filename (replace SPACE HYPHEN x) = sanitize_filename x
  /\ sanitize_filename (replace HYPHEN UNDERSCORE x) = sanitize_filename x
  /\ sanitize_filename (replace SPACE UNDERSCORE x) = sanitize_filename x.
Proof.
  repeat split; unfold sanitize_filename; cbv zeta;
    rewrite separators_first_step by (cbn; tauto); reflexivity.
Qed.

Lemma replace_is_ascii (old new : char) (x : str) :
  is_ascii new = true -> forallb is_ascii x = true ->
  forallb is_ascii (replace old new x) = true.
Proof.
  intros Hnew. unfold replace.
  induction x as [|c x IH]; [reflexivity|]. cbn [map forallb]. intros H.
  apply andb_prop in H as [Hc Hx]. rewrite (IH Hx).
  destruct (N.eqb c old); [rewrite Hnew | rewrite Hc]; reflexivity.
Qed.

Lemma ascii_lower_replace (old new : char) (x : str) :
  ascii_lower old = old -> ascii_lower new = new ->
  (forall c, ascii_lower c = old -> c = old) ->
  map ascii_lower (replace old new x) = replace old new (map ascii_lower x).
Proof.
  intros Hold Hnew Hinj. unfold replace. rewrite !map_map. apply map_ext. intros c.
  destruct (N.eqb_spec c old) as [->|Hne].
  - rewrite Hold, N.eqb_refl. exact Hnew.
  - destruct (N.eqb_spec (ascii_lower c) old) as [He|?]; [|reflexivity].
    apply Hinj in He. contradiction.
Qed.

Lemma ascii_lower_not_separator (k : char) :
  In k [HYPHEN; SPACE] -> forall c, ascii_lower c = k -> c = k.
Proof.
  intros Hk c. unfold ascii_lower.
  destruct ((65 <=? c)%N && (c <=? 90)%N) eqn:Hc; [|tauto].
  nbool. cbn in Hk. unfold HYPHEN, SPACE in Hk. intros <-.
  destruct Hk as [Hk|[Hk|[]]]; lia.
Qed.

(** X4. On ASCII stems the function does not see case: two stems with
    the same lower-case form get the same sanitized name. *)
Theorem sanitize_filename_ignores_case `{!UnicodeLaws U} (x y : str) :
  forallb is_ascii x = true ->
  forallb is_ascii y = true ->
  map ascii_lower x = map ascii_lower y ->
  sanitize_filename x = sanitize_filename y.
Proof.
  intros Hx Hy Heq. rewrite !sanitize_filename_steps.
  rewrite !to_words_ascii by (apply replace_is_ascii; [reflexivity|];
                              apply replace_is_ascii; [reflexivity | assumption]).
  rewrite !(ascii_lower_replace SPACE)
    by (try reflexivity; apply ascii_lower_not_separator; cbn; tauto).
  rewrite !(ascii_lower_replace HYPHEN)
    by (try reflexivity; apply ascii_lower_not_separator; cbn; tauto).
  rewrite Heq. reflexivity.
Qed.

End Collisions.

Lemma sanitize_filename_ignores_case_witness :
  sanitize_filename (U := Latin1.unicodedata) (lit "IMG_0001")
  = sanitize_filename (U := Latin1.unicodedata) (lit "img_0001").
Proof.
  apply (sanitize_filename_ignores_case (U := Latin1.unicodedata)
           (UnicodeLaws0 := Latin1_laws)); reflexivity.
Defined.

(** ** Sizes *)

Lemma Z_range_cases (P : Z -> bool) (lo len : Z) :
  forallb P (map (fun i => lo + Z.of_nat i)%Z (seq 0 (Z.to_nat len))) = true ->
  forall z, (lo <= z < lo + len)%Z -> P z = true.
Proof.
  intros H z Hz. rewrite forallb_forall in H. apply H.
  replace z with (lo + Z.of_nat (Z.to_nat (z - lo)))%Z by lia.
  apply (in_map (fun i => lo + Z.of_nat i)%Z), in_seq. lia.
Qed.

(** X5. An image whose longer side is already 3333 keeps its size,
    whatever its shorter side: on these sizes the floating-point
    computation is exact. *)
Theorem resize_preserve_ratio_sized (img : Image) :
  (width img = TARGET_SIZE /\ (1 <= height img <= TARGET_SIZE)%Z)
  \/ (height img = TARGET_SIZE /\ (1 <= width img <= TARGET_SIZE)%Z) ->
  resize_preserve_ratio img TARGET_SIZE
  = Ok (resize (flattened img) (size img) "LANCZOS").
Proof.
  intros H. rewrite resize_preserve_ratio_unfold. unfold size.
  assert (Hk : keeps_size (width img) (height img) = true).
  { destruct H as [[-> Hh]|[-> Hw]].
    - apply (Z_range_cases (fun h => keeps_size TARGET_SIZE h) 1 3333).
      + vm_compute. reflexivity.
      + unfold TARGET_SIZE in *. lia.
    - apply (Z_range_cases (fun w => keeps_size w TARGET_SIZE) 1 3333).
      + vm_compute. reflexivity.
      + unfold TARGET_SIZE in *. lia. }
  unfold keeps_size in Hk.
  destruct (new_size (width img) (height img) TARGET_SIZE) as [[w' h']|]; [|discriminate].
  apply andb_prop in Hk as [Hw Hh]. apply Z.eqb_eq in Hw, Hh. subst. reflexivity.
Qed.

Lemma resize_preserve_ratio_sized_witness :
  let img := {| mode := "P"; width := 2500; height := 3333; px := Bitmap 7 |} in
  resize_preserve_ratio img TARGET_SIZE
  = Ok (resize (flattened img) (size img) "LANCZOS").
Proof.
  apply (resize_preserve_ratio_sized
           {| mode := "P"; width := 2500; height := 3333; px := Bitmap 7 |}).
  right. cbn. unfold TARGET_SIZE. split; [reflexivity | lia].
Defined.

(** X6. A square image of side 1 to 10000 comes back 3333 wide and 3333
    or 3332 high: the rounding of the quotient never costs more than one
    pixel there. *)
Theorem resize_preserve_ratio_square (img : Image) :
  width img = height img ->
  (1 <= width img <= 10000)%Z ->
  exists new_h,
    resize_preserve_ratio img TARGET_SIZE
    = Ok (resize (flattened img) (TARGET_SIZE, new_h) "LANCZOS")
    /\ (new_h = 3333 \/ new_h = 3332)%Z.
Proof.
  intros Hsq Hside. rewrite resize_preserve_ratio_unfold, <- Hsq.
  assert (Hk : square_within_one (width img) = true).
  { apply (Z_range_cases square_within_one 1 10000).
    - vm_compute. reflexivity.
    - lia. }
  unfold square_within_one in Hk.
  destruct (new_size (width img) (width img) TARGET_SIZE) as [[w' h']|]; [|discriminate].
  apply andb_prop in Hk as [Hw Hh]. apply Z.eqb_eq in Hw. subst w'.
  exists h'. split; [reflexivity|].
  apply orb_prop in Hh as [Hh|Hh]; apply Z.eqb_eq in Hh; auto.
Qed.

Lemma resize_preserve_ratio_square_witness :
  let img := {| mode := "RGB"; width := 1080; height := 1080; px := Bitmap 3 |} in
  exists new_h,
    resize_preserve_ratio img TARGET_SIZE
    = Ok (resize (flattened img) (TARGET_SIZE, new_h) "LANCZOS")
    /\ (new_h = 3333 \/ new_h = 3332)%Z.
Proof.
  apply (resize_preserve_ratio_square
           {| mode := "RGB"; width := 1080; height := 1080; px := Bitmap 3 |});
    cbn; [reflexivity | lia].
Defined.

(** X7. Whatever the size and the mode, when the function returns the
    side that [is_landscape] names as the longer one is exactly the
    bound: the width of a landscape or square image, the height of a
    portrait one. *)
Theorem resize_preserve_ratio_longer_side (img out : Image) (max_size : Z) :
  resize_preserve_ratio img max_size = Ok out ->
  if is_landscape img then width out = max_size else height out = max_size.
Proof.
  rewrite resize_preserve_ratio_unfold. unfold is_landscape.
  destruct (new_size (width img) (height img) max_size) as [[w' h']|] eqn:Hn;
    [|discriminate].
  cbn. intros [= <-]. cbn. exact (new_size_major _ _ _ _ _ Hn).
Qed.

Lemma resize_preserve_ratio_longer_side_witness :
  let img := {| mode := "LA"; width := 600; height := 800; px := Bitmap 2 |} in
  exists out, resize_preserve_ratio img 2000 = Ok out
              /\ is_landscape img = false /\ height out = 2000%Z.
Proof.
  eexists. split; [vm_compute; reflexivity|]. split; [reflexivity|].
  refine (resize_preserve_ratio_longer_side
            {| mode := "LA"; width := 600; height := 800; px := Bitmap 2 |} _ 2000 _).
  vm_compute. reflexivity.
Defined.

(** ** Directories *)

Lemma touches_only_bind {A B} P (m : M A) (k : A -> M B) :
  touches_only P m -> (forall a, touches_only P (k a)) -> touches_only P (bind m k).
Proof.
  intros Hm Hk w p Hp. unfold bind. specialize (Hm w p Hp).
  destruct (m w) as [[a|e] w1]; cbn [snd] in *; [|exact Hm].
  rewrite (Hk a w1 p Hp). exact Hm.
Qed.

Lemma touches_only_bind_lift {A B} P (r : result A) (k : A -> M B) :
  (forall a, r = Ok a -> touches_only P (k a)) -> touches_only P (bind (lift r) k).
Proof.
  intros Hk w p Hp. unfold bind, lift. destruct r as [a|e]; [|reflexivity].
  exact (Hk a eq_refl w p Hp).
Qed.

Lemma touches_only_pure {A} P (m : M A) :
  (forall w, snd (m w) = w) -> touches_only P m.
Proof. intros H w p _. rewrite H. reflexivity. Qed.

Lemma touches_only_streams {A} P (m : M A) :
  (forall w, fs (snd (m w)) = fs w) -> touches_only P m.
Proof. intros H w p _. rewrite H. reflexivity. Qed.

Lemma touches_only_mono {A} (P Q : Path -> Prop) (m : M A) :
  (forall p, P p -> Q p) -> touches_only P m -> touches_only Q m.
Proof. intros HPQ Hm w p Hp. apply Hm. intros H. exact (Hp (HPQ p H)). Qed.

Lemma touches_only_write_file (P : Path -> Prop) q d :
  P q -> touches_only P (write_file q d).
Proof.
  intros Hq w p Hp. destruct (write_file q d w) as [r w'] eqn:Hrun. cbn [snd].
  apply (write_file_frame q d w r w' p Hrun). intros ->. contradiction.
Qed.

Lemma touches_only_unlink (P : Path -> Prop) q b : P q -> touches_only P (unlink q b).
Proof.
  intros Hq w p Hp. unfold unlink.
  destruct (stat w q) as [[|d]|]; [reflexivity| |destruct b; reflexivity].
  cbn [snd fs set_fs]. apply lookup_delete_ne. intros ->. contradiction.
Qed.

Lemma touches_only_os_mkdir (P : Path -> Prop) q : P q -> touches_only P (os_mkdir q).
Proof.
  intros Hq w p Hp. unfold os_mkdir.
  destruct (stat w q) as [n|]; [reflexivity|].
  destruct (stat w (parent q)) as [[|d]|]; try reflexivity.
  cbn [snd fs set_fs]. apply lookup_insert_ne. intros ->. contradiction.
Qed.

Lemma touches_only_mkdir_exist_ok (P : Path -> Prop) q :
  P q -> touches_only P (mkdir_exist_ok q).
Proof.
  intros Hq w p Hp. unfold mkdir_exist_ok.
  pose proof (touches_only_os_mkdir P q Hq w p Hp) as H.
  destruct (os_mkdir q w) as [[[]|e] w1]; cbn [snd] in *; [exact H|].
  destruct e; try destruct (is_dir w1 q); exact H.
Qed.

Lemma touches_only_mkdir_parents (rp : list str) :
  touches_only (fun q => q `prefix_of` rev rp) (mkdir_parents rp).
Proof.
  induction rp as [|x rp IH]; intros w p Hp; cbn [mkdir_parents].
  - pose proof (touches_only_os_mkdir (fun q => q `prefix_of` rev []) (rev [])
                  (reflexivity _) w p Hp) as H.
    destruct (os_mkdir (rev []) w) as [[[]|e] w1]; cbn [snd] in *; [exact H|].
    destruct e; try destruct (is_dir w1 _); exact H.
  - pose proof (touches_only_os_mkdir (fun q => q `prefix_of` rev (x :: rp))
                  (rev (x :: rp)) (reflexivity _) w p Hp) as H.
    destruct (os_mkdir (rev (x :: rp)) w) as [[[]|e] w1]; cbn [snd] in *; [exact H|].
    destruct e; try (destruct (is_dir w1 _); exact H).
    rewrite <- H.
    apply (touches_only_bind (fun q => q `prefix_of` rev (x :: rp))); [| |exact Hp].
    + apply (touches_only_mono (fun q => q `prefix_of` rev rp)); [|exact IH].
      intros q Hq. cbn [rev]. apply prefix_app_r. exact Hq.
    + intros _. apply touches_only_mkdir_exist_ok. reflexivity.
Qed.

Lemma mkdir_parents_keeps (rp : list str) (w : World) (q : Path) (n : node) :
  fs w !! q = Some n -> fs (snd (mkdir_parents rp w)) !! q = Some n.
Proof.
  revert w. induction rp as [|x rp IH]; intros w Hq; cbn [mkdir_parents].
  - assert (H : fs (snd (os_mkdir (rev []) w)) !! q = Some n) by exact Hq.
    destruct (os_mkdir (rev []) w) as [[[]|e] w1]; cbn [snd] in *; [exact H|].
    destruct e; try destruct (is_dir w1 _); exact H.
  - assert (H : fs (snd (os_mkdir (rev (x :: rp)) w)) !! q = Some n).
    { unfold os_mkdir. destruct (stat w (rev (x :: rp))) as [m|] eqn:Hst; [exact Hq|].
      destruct (stat w (parent (rev (x :: rp)))) as [[|d]|]; try exact Hq.
      cbn [snd fs set_fs]. rewrite lookup_insert_ne; [exact Hq|].
      intros <-. rewrite stat_nonempty in Hst; [congruence|].
      cbn [rev]. destruct (rev rp); discriminate. }
    destruct (os_mkdir (rev (x :: rp)) w) as [[[]|e] w1] eqn:Hmk; cbn [snd] in *;
      [exact H|].
    destruct e; try (destruct (is_dir w1 _); exact H).
    unfold bind. specialize (IH w1 H).
    destruct (mkdir_parents rp w1) as [[[]|e] w2]; cbn [snd] in *; [|exact IH].
    unfold mkdir_exist_ok.
    assert (H2 : fs (snd (os_mkdir (rev (x :: rp)) w2)) !! q = Some n).
    { unfold os_mkdir. destruct (stat w2 (rev (x :: rp))) as [m|] eqn:Hst; [exact IH|].
      destruct (stat w2 (parent (rev (x :: rp)))) as [[|d]|]; try exact IH.
      cbn [snd fs set_fs]. rewrite lookup_insert_ne; [exact IH|].
      intros <-. rewrite stat_nonempty in Hst; [congruence|].
      cbn [rev]. destruct (rev rp); discriminate. }
    destruct (os_mkdir (rev (x :: rp)) w2) as [[[]|e] w3]; cbn [snd] in *; [exact H2|].
    destruct e; try destruct (is_dir w3 _); exact H2.
Qed.

(** X8. [ensure_dir] only ever adds: it changes the file system at
    prefixes of its path and nowhere else, it leaves every entry that
    exists as it is, and on a path that is already a directory it does
    nothing at all. *)
Theorem ensure_dir_only_adds (p : Path) (w : World) :
  (forall q, ~ q `prefix_of` p -> fs (snd (ensure_dir p w)) !! q = fs w !! q)
  /\ (forall q n, fs w !! q = Some n -> fs (snd (ensure_dir p w)) !! q = Some n)
  /\ (is_dir w p = true -> ensure_dir p w = (Ok tt, w)).
Proof.
  unfold ensure_dir, mkdir. split; [|split].
  - intros q Hq. apply (touches_only_mkdir_parents (rev p)).
    rewrite rev_involutive. exact Hq.
  - intros q n. apply mkdir_parents_keeps.
  - intros Hdir. destruct (rev p) as [|x rp] eqn:Hrev; cbn [mkdir_parents];
      rewrite <- Hrev, rev_involutive; unfold os_mkdir;
      unfold is_dir in Hdir; destruct (stat w p) as [[|d]|] eqn:Hst; try discriminate;
      unfold is_dir; rewrite Hst; reflexivity.
Qed.

Lemma prefix_snoc_cases {A} (q l : list A) (x : A) :
  q `prefix_of` l ++ [x] -> q `prefix_of` l \/ q = l ++ [x].
Proof.
  intros [k Hk]. destruct k as [|y k _] using rev_ind.
  - right. rewrite app_nil_r in Hk. congruence.
  - left. rewrite app_assoc in Hk. apply app_inj_tail in Hk as [-> _].
    exists k. reflexivity.
Qed.

Lemma prefix_snoc_shorter {A} (q l : list A) (x : A) :
  q `prefix_of` l -> q <> l ++ [x].
Proof.
  intros Hq ->. exact (prefix_snoc_not l x Hq).
Qed.

Lemma well_formed_ancestors (w : World) (p q : Path) :
  well_formed w -> is_dir w p = true -> q `prefix_of` p -> is_dir w q = true.
Proof.
  intros Hwf. revert q. induction p as [|x l IH] using rev_ind; intros q Hdir Hq.
  - apply prefix_nil_inv in Hq. subst q. reflexivity.
  - apply prefix_snoc_cases in Hq as [Hq| ->]; [|exact Hdir].
    apply IH; [|exact Hq].
    assert (Hne : l ++ [x] <> []) by (destruct l; discriminate).
    pose proof (Hwf (l ++ [x]) Hne) as Hpar. unfold parent in Hpar.
    rewrite removelast_last in Hpar. apply Hpar.
    unfold is_dir in Hdir.
    destruct (stat w (l ++ [x])) as [n|] eqn:Hst; [|discriminate Hdir].
    rewrite stat_nonempty in Hst by exact Hne. exists n. exact Hst.
Qed.

Lemma is_dir_not_file (w : World) (q : Path) : is_dir w q = true -> is_file w q = false.
Proof. unfold is_dir, is_file. destruct (stat w q) as [[|d]|]; congruence. Qed.

Lemma well_formed_insert_dir (w : World) (l : Path) (x : str) :
  well_formed w -> is_dir w l = true ->
  well_formed (set_fs (<[l ++ [x] := Dir]> (fs w)) w).
Proof.
  intros Hwf Hl q Hq Hsome. unfold is_dir, stat. cbn [fs set_fs] in *.
  assert (Hpar : forall r, is_dir w r = true ->
                 match r with [] => Some Dir | _ => <[l ++ [x] := Dir]> (fs w) !! r end
                 = Some Dir).
  { intros r Hr. destruct r as [|a r]; [reflexivity|].
    destruct (decide (l ++ [x] = a :: r)) as [<-|Hne].
    - apply lookup_insert_eq.
    - rewrite lookup_insert_ne by exact Hne. unfold is_dir, stat in Hr.
      match type of Hr with
      | context [match ?t with _ => _ end] => destruct t as [[|d]|]
      end; congruence. }
  destruct (decide (l ++ [x] = q)) as [<-|Hne].
  - unfold parent. rewrite removelast_last, (Hpar l Hl). reflexivity.
  - rewrite lookup_insert_ne in Hsome by exact Hne.
    rewrite (Hpar (parent q) (Hwf q Hq Hsome)). reflexivity.
Qed.

Lemma is_dir_insert_dir (w : World) (p q : Path) :
  is_dir w q = true -> is_dir (set_fs (<[p := Dir]> (fs w)) w) q = true.
Proof.
  unfold is_dir, stat. cbn [fs set_fs]. destruct q as [|a q]; [reflexivity|].
  destruct (decide (p = a :: q)) as [->|Hne].
  - rewrite lookup_insert_eq. reflexivity.
  - rewrite lookup_insert_ne by exact Hne. tauto.
Qed.

Lemma os_mkdir_child (w : World) (l : Path) (x : str) :
  stat w (l ++ [x]) = None -> is_dir w l = true ->
  os_mkdir (l ++ [x]) w = (Ok tt, set_fs (<[l ++ [x] := Dir]> (fs w)) w).
Proof.
  intros Hp Hl. unfold os_mkdir. rewrite Hp. unfold parent.
  rewrite removelast_last. unfold is_dir in Hl.
  destruct (stat w l) as [[|d]|]; try discriminate. reflexivity.
Qed.

Lemma mkdir_parents_well_formed (rp : list str) (w : World) :
  well_formed w ->
  ((forall q, q `prefix_of` rev rp -> is_file w q = false)
   /\ exists w', mkdir_parents rp w = (Ok tt, w') /\ well_formed w'
                 /\ forall q, q `prefix_of` rev rp -> is_dir w' q = true)
  \/ ((exists q, q `prefix_of` rev rp /\ is_file w q = true)
      /\ exists e, mkdir_parents rp w = (Raise e, w)).
Proof.
  intros Hwf. induction rp as [|x rp IH].
  - left. split.
    + intros q Hq. apply prefix_nil_inv in Hq. subst q. reflexivity.
    + exists w. split; [reflexivity|]. split; [exact Hwf|].
      intros q Hq. apply prefix_nil_inv in Hq. subst q. reflexivity.
  - cbn [mkdir_parents rev]. set (l := rev rp) in *.
    assert (Hne : l ++ [x] <> []) by (destruct l; discriminate).
    destruct (stat w (l ++ [x])) as [[|d]|] eqn:Hst.
    + (* already a directory *)
      assert (Hdir : is_dir w (l ++ [x]) = true) by (unfold is_dir; rewrite Hst; reflexivity).
      left. split.
      * intros q Hq. apply is_dir_not_file.
        exact (well_formed_ancestors w _ q Hwf Hdir Hq).
      * exists w. unfold os_mkdir. rewrite Hst, Hdir.
        split; [reflexivity|]. split; [exact Hwf|].
        intros q Hq. exact (well_formed_ancestors w _ q Hwf Hdir Hq).
    + (* a regular file *)
      right. split.
      * exists (l ++ [x]). split; [reflexivity|]. unfold is_file. rewrite Hst. reflexivity.
      * exists FileExistsError. unfold os_mkdir. rewrite Hst.
        unfold is_dir. rewrite Hst. reflexivity.
    + destruct (stat w l) as [[|d]|] eqn:Hl.
      * (* the parent is a directory *)
        assert (Hdir : is_dir w l = true) by (unfold is_dir; rewrite Hl; reflexivity).
        left. split.
        -- intros q Hq. apply prefix_snoc_cases in Hq as [Hq| ->].
           ++ apply is_dir_not_file. exact (well_formed_ancestors w l q Hwf Hdir Hq).
           ++ unfold is_file. rewrite Hst. reflexivity.
        -- eexists. rewrite (os_mkdir_child w l x Hst Hdir).
           split; [reflexivity|]. split; [exact (well_formed_insert_dir w l x Hwf Hdir)|].
           intros q Hq. apply prefix_snoc_cases in Hq as [Hq| ->].
           ++ apply is_dir_insert_dir. exact (well_formed_ancestors w l q Hwf Hdir Hq).
           ++ unfold is_dir. rewrite stat_nonempty by exact Hne. cbn [fs set_fs].
              rewrite lookup_insert_eq. reflexivity.
      * (* the parent is a regular file *)
        right. split.
        -- exists l. split; [apply prefix_app_r; reflexivity|].
           unfold is_file. rewrite Hl. reflexivity.
        -- exists NotADirectoryError. unfold os_mkdir, parent.
           rewrite Hst, removelast_last, Hl. unfold is_dir. rewrite Hst. reflexivity.
      * (* the parent is missing *)
        assert (Hmk : os_mkdir (l ++ [x]) w = (Raise FileNotFoundError, w)).
        { unfold os_mkdir, parent. rewrite Hst, removelast_last, Hl. reflexivity. }
        rewrite Hmk. unfold bind.
        destruct IH as [(Hfiles & w1 & Hrun & Hwf1 & Hdirs)|((q & Hq & Hfile) & e & Hrun)].
        -- rewrite Hrun.
           assert (Hl1 : is_dir w1 l = true) by (apply Hdirs; reflexivity).
           assert (Hst1 : stat w1 (l ++ [x]) = None).
           { rewrite stat_nonempty in * by exact Hne.
             pose proof (touches_only_mkdir_parents rp w (l ++ [x])) as Hframe.
             rewrite Hrun in Hframe. cbn [snd] in Hframe. rewrite Hframe; [exact Hst|].
             apply prefix_snoc_not. }
           left. split.
           ++ intros q Hq. apply prefix_snoc_cases in Hq as [Hq| ->]; [auto|].
              unfold is_file. rewrite Hst. reflexivity.
           ++ eexists. unfold mkdir_exist_ok. rewrite (os_mkdir_child w1 l x Hst1 Hl1).
              split; [reflexivity|].
              split; [exact (well_formed_insert_dir w1 l x Hwf1 Hl1)|].
              intros q Hq. apply prefix_snoc_cases in Hq as [Hq| ->].
              ** apply is_dir_insert_dir. auto.
              ** unfold is_dir. rewrite stat_nonempty by exact Hne. cbn [fs set_fs].
                 rewrite lookup_insert_eq. reflexivity.
        -- rewrite Hrun. right. split; [|eauto].
           exists q. split; [apply prefix_app_r; exact Hq | exact Hfile].
Qed.

(** X9. In a file system where every entry sits in a directory,
    [ensure_dir] returns exactly when no regular file lies on the path:
    then the path and all its ancestors are directories and the file
    system is still well formed; otherwise it raises and leaves the file
    system as it was. *)
Theorem ensure_dir_well_formed (p : Path) (w : World) :
  well_formed w ->
  ((forall q, q `prefix_of` p -> is_file w q = false)
   /\ exists w', ensure_dir p w = (Ok tt, w') /\ well_formed w'
                 /\ forall q, q `prefix_of` p -> is_dir w' q = true)
  \/ ((exists q, q `prefix_of` p /\ is_file w q = true)
      /\ exists e, ensure_dir p w = (Raise e, w)).
Proof.
  intros Hwf. unfold ensure_dir, mkdir.
  pose proof (mkdir_parents_well_formed (rev p) w Hwf) as H.
  rewrite rev_involutive in H. exact H.
Qed.

Lemma well_formed_empty : well_formed (Scenario.world []).
Proof. intros p _ [n Hn]. cbn in Hn. rewrite lookup_empty in Hn. discriminate. Qed.

Lemma ensure_dir_well_formed_witness :
  let w := Scenario.world [] in
  let p := [lit "site"; lit "out"] in
  fst (ensure_dir p w) = Ok tt
  /\ (((forall q, q `prefix_of` p -> is_file w q = false)
       /\ exists w', ensure_dir p w = (Ok tt, w') /\ well_formed w'
                     /\ forall q, q `prefix_of` p -> is_dir w' q = true)
      \/ ((exists q, q `prefix_of` p /\ is_file w q = true)
          /\ exists e, ensure_dir p w = (Raise e, w))).
Proof.
  split; [vm_compute; reflexivity|].
  exact (ensure_dir_well_formed [lit "site"; lit "out"] (Scenario.world [])
           well_formed_empty).
Defined.

(** ** Discovery *)

Lemma In_entries (w : World) (p : Path) :
  In p (entries w) <-> is_Some (fs w !! p).
Proof.
  unfold entries. rewrite in_map_iff. split.
  - intros [[q n] [<- Hin]]. exists n. cbn.
    apply list_elem_of_In, elem_of_map_to_list in Hin. exact Hin.
  - intros [n Hn]. exists (p, n). split; [reflexivity|].
    apply list_elem_of_In, elem_of_map_to_list. exact Hn.
Qed.

Lemma NoDup_entries (w : World) : NoDup (entries w).
Proof.
  unfold entries. pose proof (NoDup_fst_map_to_list (fs w)) as H.
  replace (map fst (map_to_list (fs w))) with ((map_to_list (fs w)).*1); [exact H|].
  generalize (map_to_list (fs w)). intros l.
  induction l as [|a l IH]; [reflexivity|]. cbn. congruence.
Qed.

Lemma is_file_is_Some (w : World) (p : Path) :
  is_file w p = true -> p <> [] /\ is_Some (fs w !! p).
Proof.
  unfold is_file, stat. destruct p as [|a p]; [discriminate|].
  intros H. split; [discriminate|].
  match type of H with
  | context [match ?t with _ => _ end] => destruct t as [n|]
  end; [eauto | discriminate].
Qed.

Section DiscoveryFacts.
Context {U : UnicodeData}.

Lemma iter_images_value (d : Path) (r : bool) (w : World) :
  iter_images d r w
  = (Ok (List.filter (wanted w)
           (if is_dir w d
            then List.filter
                   (fun p => if r
                             then bool_decide ((length d < length p)%nat
                                               /\ take (length d) p = d)
                             else bool_decide (p <> [] /\ parent p = d))
                   (entries w)
            else [])), w).
Proof. unfold iter_images. destruct r; reflexivity. Qed.

Lemma iter_images_In (d : Path) (r : bool) (w : World) (p : Path) :
  In p (match fst (iter_images d r w) with Ok files => files | Raise _ => [] end)
  <-> is_dir w d = true
      /\ is_file w p = true
      /\ lower (suffix p) ∈ exts
      /\ (if r then (length d < length p)%nat /\ take (length d) p = d
          else p <> [] /\ parent p = d).
Proof.
  rewrite iter_images_value. cbn [fst].
  rewrite filter_In. unfold wanted. rewrite andb_true_iff, bool_decide_eq_true.
  destruct (is_dir w d).
  - rewrite filter_In, In_entries.
    assert (Hrel : (if r
                    then bool_decide ((length d < length p)%nat /\ take (length d) p = d)
                    else bool_decide (p <> [] /\ parent p = d)) = true
                   <-> (if r then (length d < length p)%nat /\ take (length d) p = d
                        else p <> [] /\ parent p = d))
      by (destruct r; apply bool_decide_eq_true).
    rewrite Hrel. split.
    + intros [[_ H] [Hf He]]. auto.
    + intros (_ & Hf & He & H).
      split; [split; [exact (proj2 (is_file_is_Some w p Hf)) | exact H] | auto].
  - cbn [In]. split; [tauto | intros [H _]; discriminate H].
Qed.

(** X10. [iter_images] leaves the world alone and yields, each once,
    exactly the regular files with one of the eight extensions (in any
    case) that are children of the directory, or, with [recursive], that
    lie anywhere below it; on something that is not a directory it
    yields nothing. *)
Theorem iter_images_yields (d : Path) (r : bool) (w : World) :
  exists files,
    iter_images d r w = (Ok files, w)
    /\ NoDup files
    /\ (is_dir w d = false -> files = [])
    /\ forall p,
        In p files
        <-> is_dir w d = true
            /\ is_file w p = true
            /\ lower (suffix p) ∈ exts
            /\ (if r then (length d < length p)%nat /\ take (length d) p = d
                else p <> [] /\ parent p = d).
Proof.
  pose proof (iter_images_In d r w) as Hin.
  rewrite iter_images_value in *. cbn [fst] in Hin.
  eexists. split; [reflexivity|].
  split; [|split; [intros ->; reflexivity | exact Hin]].
  apply NoDup_ListNoDup, List.NoDup_filter.
  destruct (is_dir w d); [|constructor].
  apply List.NoDup_filter, NoDup_ListNoDup, NoDup_entries.
Qed.

(** X11. Every file found without [recursive] is found with it. *)
Theorem iter_images_recursive_finds_more (d : Path) (w : World)
    (top all : list Path) :
  iter_images d false w = (Ok top, w) ->
  iter_images d true w = (Ok all, w) ->
  forall p, In p top -> In p all.
Proof.
  intros Htop Hall p Hp.
  pose proof (iter_images_In d false w p) as H1.
  pose proof (iter_images_In d true w p) as H2.
  rewrite Htop in H1. rewrite Hall in H2. cbn [fst] in *.
  apply H1 in Hp as (Hd & Hf & He & Hne & Hpar). apply H2.
  repeat split; try assumption.
  - subst d. unfold parent.
    pose proof (app_removelast_last [] Hne) as Hlen.
    apply (f_equal (@length str)) in Hlen. rewrite length_app in Hlen.
    cbn [length] in Hlen. unfold str, char in *. clear - Hlen. lia.
  - pose proof (child_relative p d Hne Hpar) as Hrel.
    unfold is_relative_to in Hrel. apply bool_decide_eq_true in Hrel. exact Hrel.
Qed.

End DiscoveryFacts.

Lemma iter_images_recursive_finds_more_witness :
  let top := match fst (iter_images (U := Latin1.unicodedata) [lit "in"] false Scenario2.nested)
             with Ok l => l | Raise _ => [] end in
  let all := match fst (iter_images (U := Latin1.unicodedata) [lit "in"] true Scenario2.nested)
             with Ok l => l | Raise _ => [] end in
  (top = [[lit "in"; lit "a.png"]]
   /\ In [lit "in"; lit "sub"; lit "b.JPG"] all /\ length all = 2%nat)
  /\ forall p, In p top -> In p all.
Proof.
  split; [vm_compute; repeat split; auto|].
  apply (iter_images_recursive_finds_more (U := Latin1.unicodedata)
           [lit "in"] Scenario2.nested); vm_compute; reflexivity.
Defined.

(** ** The call to the service *)

Section ServiceFacts.
Context (E : Env).

(** X12. [tinify_compress_file] either writes the answer of the service
    to the upload at the output path, and nothing else, or raises and
    leaves the world as it was: with tinify missing or with no key it
    raises its [RuntimeError] before it reads any file. *)
Theorem tinify_compress_file_outcome (input_path output_path : Path) (w : World) :
  match tinify_compress_file E input_path output_path w with
  | (Ok _, w') =>
      TINIFY_AVAILABLE E = true
      /\ exists key upload response,
          TINIFY_KEY E = Some key /\ key <> []
          /\ stat w input_path = Some (File upload)
          /\ tinify_service E key upload = Ok response
          /\ w' = set_fs (<[output_path := File response]> (fs w)) w
  | (Raise e, w') =>
      w' = w
      /\ (TINIFY_AVAILABLE E = false ->
          e = RuntimeError "Le module 'tinify' n'est pas installé.")
      /\ (TINIFY_AVAILABLE E = true -> key_set (TINIFY_KEY E) = false ->
          e = RuntimeError "Variable d'environnement TINIFY_KEY manquante.")
  end.
Proof.
  unfold tinify_compress_file.
  destruct (TINIFY_AVAILABLE E); cbn [negb];
    [|cbn; split; [reflexivity|]; split; [reflexivity | discriminate]].
  destruct (TINIFY_KEY E) as [[|c key]|]; cbn [key_set negb];
    try (cbn; split; [reflexivity|]; split; [discriminate | reflexivity]).
  unfold bind at 1, read_file.
  destruct (stat w input_path) as [[|upload]|] eqn:Hin;
    try (split; [reflexivity|]; split; discriminate).
  unfold bind, lift.
  destruct (tinify_service E (c :: key) upload) as [response|e] eqn:Hservice;
    [|split; [reflexivity|]; split; discriminate].
  unfold write_file.
  destruct (stat w output_path) as [[|d]|];
    try (split; [reflexivity|]; split; discriminate);
    (destruct (stat w (parent output_path)) as [[|d']|];
     try (split; [reflexivity|]; split; discriminate));
    (split; [reflexivity|]; exists (c :: key), upload, response;
     repeat split; try assumption; try reflexivity; discriminate).
Qed.

End ServiceFacts.

(** ** What is on disk afterwards *)

Lemma with_suffix_compressed (base tmp : Path) :
  with_suffix base (lit ".tmp.png") = Ok tmp ->
  exists c, with_suffix base (lit ".tmp_compressed.png") = Ok c.
Proof.
  unfold with_suffix. cbn [existsb]. cbn -[name suffix parent is_empty take length].
  destruct (is_empty (name base)); [discriminate|]. eauto.
Qed.

Lemma is_dir_false_stat (w : World) (p : Path) :
  is_dir w p = false ->
  match stat w p with Some Dir => False | _ => True end.
Proof. unfold is_dir. destruct (stat w p) as [[|d]|]; [discriminate | tauto | tauto]. Qed.

Lemma write_file_run (w : World) (p : Path) (d : data) :
  is_dir w (parent p) = true -> is_dir w p = false ->
  write_file p d w = (Ok tt, set_fs (<[p := File d]> (fs w)) w).
Proof.
  unfold write_file, is_dir. intros Hpar Hp.
  destruct (stat w p) as [[|d0]|]; try discriminate;
    destruct (stat w (parent p)) as [[|d1]|]; try discriminate; reflexivity.
Qed.

Section DiskFacts.
Context (E : Env).

(** X13. When the service refuses the upload, the round trip raises the
    error of the service; the temporary PNG it had written stays on disk
    and nothing else has changed: no output file is written. *)
Theorem round_trip_service_failure (img : Image) (base tmp : Path) (q : Z)
    (w : World) (key : str) (e : exception) :
  TINIFY_AVAILABLE E = true ->
  TINIFY_KEY E = Some key -> key <> [] ->
  tinify_service E key (Raster PNG_settings img) = Raise e ->
  with_suffix base (lit ".tmp.png") = Ok tmp ->
  is_dir w (parent tmp) = true -> is_dir w tmp = false ->
  round_trip E img base q w
  = (Raise e, set_fs (<[tmp := File (Raster PNG_settings img)]> (fs w)) w).
Proof.
  intros Hlib Hkey Hne Hservice Htmp Hpar Hnodir.
  destruct (with_suffix_compressed base tmp Htmp) as [comp Hcomp].
  unfold round_trip, round_trip_send.
  unfold bind at 1. unfold bind at 1. unfold lift at 1. rewrite Htmp.
  unfold bind at 1. unfold Image_save.
  change {| format := "PNG"; quality := None; optimize := true; method := None;
            dpi := Some TARGET_DPI |} with PNG_settings.
  rewrite (write_file_run w tmp _ Hpar Hnodir).
  unfold bind at 1. unfold lift at 1. rewrite Hcomp.
  unfold bind at 1.
  pose proof (with_suffix_nonempty _ _ _ Htmp) as Htmp_ne.
  unfold tinify_compress_file. rewrite Hlib, Hkey. cbn [negb key_set].
  destruct key as [|c key]; [contradiction|]. cbn [key_set negb].
  unfold bind at 1. unfold read_file.
  rewrite (stat_nonempty _ _ Htmp_ne). cbn [fs set_fs]. rewrite lookup_insert_eq.
  unfold bind at 1. unfold lift. rewrite Hservice. reflexivity.
Qed.

Lemma save_formats_from_image_contents img base q (w w' : World) written :
  save_formats_from_image E img base q w = (Ok written, w') ->
  exists jpg webp,
    with_suffix base (lit ".jpg") = Ok jpg
    /\ with_suffix base (lit ".webp") = Ok webp
    /\ fs w' !! jpg = Some (File (Raster (JPEG_settings q) img))
    /\ fs w' !! webp = Some (File (Raster (WEBP_settings q) img))
    /\ if AVIF_SUPPORTED E then
         exists avif,
           with_suffix base (lit ".avif") = Ok avif
           /\ fs w' !! avif = Some (File (Raster (AVIF_settings q) img))
           /\ written = [("jpg"%string, jpg); ("webp"%string, webp); ("avif"%string, avif)]
           /\ forall p, p <> jpg -> p <> webp -> p <> avif -> fs w' !! p = fs w !! p
       else
         written = [("jpg"%string, jpg); ("webp"%string, webp)]
         /\ forall p, p <> jpg -> p <> webp -> fs w' !! p = fs w !! p.
Proof.
  unfold save_formats_from_image, Image_save. cbv zeta. intros H.
  apply bind_Ok in H as (jpg & w1 & Hjpg & H). apply lift_Ok in Hjpg as [Hjpg ->].
  apply bind_Ok in H as ([] & w2 & Hs1 & H). apply write_file_Ok in Hs1.
  apply bind_Ok in H as (webp & w3 & Hwebp & H). apply lift_Ok in Hwebp as [Hwebp ->].
  apply bind_Ok in H as ([] & w4 & Hs2 & H). apply write_file_Ok in Hs2.
  assert (Hjw : jpg <> webp)
    by (apply (with_suffix_differ base (lit ".jpg") (lit ".webp")); [assumption..|discriminate]).
  exists jpg, webp. split; [exact Hjpg|]. split; [exact Hwebp|].
  destruct (AVIF_SUPPORTED E).
  - apply bind_Ok in H as (avif & w5 & Havif & H). apply lift_Ok in Havif as [Havif ->].
    apply bind_Ok in H as ([] & w6 & Hs3 & H). apply write_file_Ok in Hs3.
    injection H as <- <-.
    assert (Hja : jpg <> avif)
      by (apply (with_suffix_differ base (lit ".jpg") (lit ".avif")); [assumption..|discriminate]).
    assert (Hwa : webp <> avif)
      by (apply (with_suffix_differ base (lit ".webp") (lit ".avif")); [assumption..|discriminate]).
    rewrite Hs3, Hs2, Hs1.
    split; [rewrite !lookup_insert_ne by congruence; apply lookup_insert_eq|].
    split; [rewrite lookup_insert_ne by congruence; apply lookup_insert_eq|].
    exists avif. split; [exact Havif|]. split; [apply lookup_insert_eq|].
    split; [reflexivity|]. intros p H1 H2 H3.
    rewrite !lookup_insert_ne by congruence. reflexivity.
  - injection H as <- <-. rewrite Hs2, Hs1.
    split; [rewrite lookup_insert_ne by congruence; apply lookup_insert_eq|].
    split; [apply lookup_insert_eq|].
    split; [reflexivity|]. intros p H1 H2.
    rewrite !lookup_insert_ne by congruence. reflexivity.
Qed.


End DiskFacts.

Lemma round_trip_service_failure_witness :
  let img := {| mode := "RGB"; width := 3333; height := 2499; px := Bitmap 1 |} in
  round_trip Scenario2.refusing img [lit "out"; lit "a"] 85 Scenario.bare
  = (Raise (TinifyError "AccountError"),
     set_fs (<[[lit "out"; lit "a.tmp.png"] := File (Raster PNG_settings img)]>
               (fs Scenario.bare)) Scenario.bare).
Proof.
  apply (round_trip_service_failure Scenario2.refusing
           {| mode := "RGB"; width := 3333; height := 2499; px := Bitmap 1 |}
           [lit "out"; lit "a"] [lit "out"; lit "a.tmp.png"] 85 Scenario.bare
           (lit "key")); try reflexivity.
  discriminate.
Defined.


Lemma is_dir_lookup (w w' : World) (p : Path) :
  fs w' !! p = fs w !! p -> is_dir w' p = is_dir w p.
Proof. unfold is_dir, stat. intros H. destruct p; [reflexivity|]. rewrite H. reflexivity. Qed.

Lemma not_own_child {A} (l : list A) (x : A) : l <> l ++ [x].
Proof.
  intros H. apply (f_equal (@length A)) in H. rewrite length_app in H.
  cbn in H. lia.
Qed.

Section OneFile.
Context {U : UnicodeData} (E : Env).

(** X15. A file that goes through without remote compression and with
    renaming ends up, as JPEG and WebP (and AVIF with the plugin), in the
    output directory, under the relative directory of the source when
    the structure is kept, named by the sanitized stem followed by the
    extension; the files hold the resized image, and the line printed
    names them. *)
Theorem process_one_try_renamed (src rel out_dir : Path) (q : Z) (ks : bool)
    (w w' : World) :
  process_one_try E src rel out_dir false false q ks w = (Ok tt, w') ->
  let dir := joinpath out_dir (if ks then parent rel else []) in
  let slug := sanitize_filename (stem src) in
  exists im resized,
    Image_open src w = (Ok im, w)
    /\ resize_preserve_ratio im TARGET_SIZE = Ok resized
    /\ is_dir w' dir = true
    /\ fs w' !! joinpath dir [slug ++ lit ".jpg"]
       = Some (File (Raster (JPEG_settings q) resized))
    /\ fs w' !! joinpath dir [slug ++ lit ".webp"]
       = Some (File (Raster (WEBP_settings q) resized))
    /\ (AVIF_SUPPORTED E = true ->
        fs w' !! joinpath dir [slug ++ lit ".avif"]
        = Some (File (Raster (AVIF_settings q) resized)))
    /\ stdout w'
       = stdout w
         ++ [OK (name src) slug
               (if is_landscape im then "landscape" else "portrait")
               ([slug ++ lit ".jpg"; slug ++ lit ".webp"]
                ++ if AVIF_SUPPORTED E then [slug ++ lit ".avif"] else [])]
    /\ stderr w' = stderr w.
Proof.
  unfold process_one_try. cbv zeta. intros H.
  apply bind_Ok in H as ([orientation resized] & wa & HA & H).
  apply bind_Ok in HA as (im & w0 & Hopen & HA).
  pose proof (Image_open_world _ _ _ _ Hopen) as ->.
  apply bind_Ok in HA as (resized' & w0 & Hres & HA).
  apply lift_Ok in Hres as [Hres ->]. injection HA as <- <- <-.
  apply bind_Ok in H as ([] & wb & Hmk & H).
  apply bind_Ok in H as (written & wc & Hsave & Hprint).
  injection Hprint as <-.
  destruct (ensure_dir_streams _ _ _ _ Hmk) as [Hout_b Herr_b].
  assert (stdout wc = stdout wb /\ stderr wc = stderr wb) as [Hout_c Herr_c].
  { match type of Hsave with
    | save_formats_from_image _ _ ?b _ _ = _ =>
        pose proof (quiet_save_formats_from_image E resized' b q wb) as Hq
    end.
    rewrite Hsave in Hq. exact Hq. }
  apply save_formats_from_image_contents in Hsave
    as (jpg & webp & Hjpg & Hwebp & Hj & Hw & Hrest).
  rewrite sanitized_base_appends in Hjpg by (cbn; tauto). injection Hjpg as <-.
  rewrite sanitized_base_appends in Hwebp by (cbn; tauto). injection Hwebp as <-.
  exists im, resized'. cbn [fs stdout stderr].
  split; [exact Hopen|]. split; [exact Hres|].
  assert (Hdir : is_dir wc (joinpath out_dir (if ks then parent rel else [])) = true).
  { rewrite <- (mkdir_Ok _ _ _ Hmk). apply is_dir_lookup.
    destruct (AVIF_SUPPORTED E).
    - destruct Hrest as (avif & Havif & _ & _ & Hframe).
      rewrite sanitized_base_appends in Havif by (cbn; tauto). injection Havif as <-.
      apply Hframe; apply not_own_child.
    - destruct Hrest as (_ & Hframe). apply Hframe; apply not_own_child. }
  split; [exact Hdir|]. split; [exact Hj|]. split; [exact Hw|].
  destruct (AVIF_SUPPORTED E).
  - destruct Hrest as (avif & Havif & Ha & -> & _).
    rewrite sanitized_base_appends in Havif by (cbn; tauto). injection Havif as <-.
    split; [intros _; exact Ha|]. split; [|congruence].
    rewrite Hout_c, Hout_b. cbn [map snd]. rewrite !name_joinpath. reflexivity.
  - destruct Hrest as (-> & _). split; [discriminate|]. split; [|congruence].
    rewrite Hout_c, Hout_b. cbn [map snd]. rewrite !name_joinpath. reflexivity.
Qed.

(** X16. A source that cannot be opened, or whose resizing raises,
    leaves no trace on disk, not even the output sub-directory: the only
    effect of [process_one] is the error line. *)
Theorem process_one_unreadable (src rel out_dir : Path) (nr tp : bool) (q : Z)
    (ks : bool) (w : World) (e : exception) :
  Image_open src w = (Raise e, w)
  \/ (exists im, Image_open src w = (Ok im, w)
                 /\ resize_preserve_ratio im TARGET_SIZE = Raise e) ->
  process_one E src rel out_dir nr tp q ks w
  = (Ok tt, {| fs := fs w; stdout := stdout w; stderr := stderr w ++ [ERR src e] |}).
Proof.
  intros H. unfold process_one, try_except, process_one_try.
  unfold bind at 1. unfold bind at 1.
  destruct H as [Hopen|(im & Hopen & Hres)]; rewrite Hopen; [reflexivity|].
  unfold bind at 1. unfold lift. rewrite Hres. reflexivity.
Qed.

End OneFile.

Lemma process_one_try_renamed_witness :
  let src := [lit "in"; lit "sub"; lit "b.JPG"] in
  let w' := snd (process_one_try (U := Latin1.unicodedata) Scenario2.with_avif src
                   [lit "sub"; lit "b.JPG"] [lit "out"] false false 85 true
                   Scenario2.nested) in
  exists im resized,
    Image_open src Scenario2.nested = (Ok im, Scenario2.nested)
    /\ resize_preserve_ratio im TARGET_SIZE = Ok resized
    /\ is_dir w' [lit "out"; lit "sub"] = true
    /\ fs w' !! [lit "out"; lit "sub"; lit "b.jpg"]
       = Some (File (Raster (JPEG_settings 85) resized))
    /\ fs w' !! [lit "out"; lit "sub"; lit "b.webp"]
       = Some (File (Raster (WEBP_settings 85) resized))
    /\ (AVIF_SUPPORTED Scenario2.with_avif = true ->
        fs w' !! [lit "out"; lit "sub"; lit "b.avif"]
        = Some (File (Raster (AVIF_settings 85) resized)))
    /\ stdout w'
       = [OK (lit "b.JPG") (lit "b")
            (if is_landscape im then "landscape" else "portrait")
            [lit "b.jpg"; lit "b.webp"; lit "b.avif"]]
    /\ stderr w' = [].
Proof.
  intros src w'.
  exact (process_one_try_renamed (U := Latin1.unicodedata) Scenario2.with_avif
           src [lit "sub"; lit "b.JPG"] [lit "out"] 85 true Scenario2.nested w'
           ltac:(vm_compute; reflexivity)).
Defined.

Lemma process_one_unreadable_witness :
  let src := [lit "in"; lit "b.jpg"] in
  process_one (U := Latin1.unicodedata) Scenario.env src [lit "b.jpg"] [lit "out"]
    false false 85 false Scenario.batch
  = (Ok tt, {| fs := fs Scenario.batch; stdout := [];
               stderr := [ERR src UnidentifiedImageError] |}).
Proof.
  apply (process_one_unreadable (U := Latin1.unicodedata) Scenario.env
           [lit "in"; lit "b.jpg"] [lit "b.jpg"] [lit "out"] false false 85 false
           Scenario.batch UnidentifiedImageError).
  left. vm_compute. reflexivity.
Defined.

(** ** What the script leaves alone *)

Create HintDb frame.

Lemma touches_only_ret {A} P (a : A) : touches_only P (ret a).
Proof. apply touches_only_pure. reflexivity. Qed.

Lemma touches_only_raise {A} P e : touches_only P (@raise A e).
Proof. apply touches_only_pure. reflexivity. Qed.

Lemma touches_only_lift {A} P (r : result A) : touches_only P (lift r).
Proof. apply touches_only_pure. reflexivity. Qed.

Lemma touches_only_print P l : touches_only P (print l).
Proof. apply touches_only_streams. reflexivity. Qed.

Lemma touches_only_eprint P l : touches_only P (eprint l).
Proof. apply touches_only_streams. reflexivity. Qed.

Lemma touches_only_exists P p : touches_only P (exists_ p).
Proof. apply touches_only_pure. reflexivity. Qed.

Lemma touches_only_read_file P p : touches_only P (read_file p).
Proof.
  apply touches_only_pure. intros w. destruct (read_file p w) as [r w'] eqn:H.
  exact (read_file_world _ _ _ _ H).
Qed.

Lemma touches_only_Image_open P p : touches_only P (Image_open p).
Proof.
  apply touches_only_pure. intros w. destruct (Image_open p w) as [r w'] eqn:H.
  exact (Image_open_world _ _ _ _ H).
Qed.

Lemma touches_only_try_except {A} P (body : M A) handler :
  touches_only P body -> (forall e, touches_only P (handler e)) ->
  touches_only P (try_except body handler).
Proof.
  intros Hb Hh w p Hp. unfold try_except. specialize (Hb w p Hp).
  destruct (body w) as [[a|e] w1]; cbn [snd] in *; [exact Hb|].
  rewrite (Hh e w1 p Hp). exact Hb.
Qed.

Lemma touches_only_for_each {A} P (body : A -> M unit) (l : list A) :
  (forall a, touches_only P (body a)) -> touches_only P (for_each body l).
Proof.
  intros Hb. induction l as [|a l IH]; cbn [for_each].
  - apply touches_only_ret.
  - apply touches_only_bind; [apply Hb | intros _; exact IH].
Qed.

Lemma touches_only_ensure_dir (out_dir sub : Path) :
  touches_only (around out_dir) (ensure_dir (joinpath out_dir sub)).
Proof.
  unfold ensure_dir, mkdir.
  apply (touches_only_mono (fun q => q `prefix_of` rev (rev (joinpath out_dir sub))));
    [|apply touches_only_mkdir_parents].
  intros q Hq. rewrite rev_involutive in Hq. unfold around, joinpath in *.
  exact (prefix_weak_total q out_dir (out_dir ++ sub) Hq (prefix_app_r _ _ _ (reflexivity _))).
Qed.

#[local] Hint Resolve touches_only_ret touches_only_raise touches_only_lift
  touches_only_print touches_only_eprint touches_only_exists
  touches_only_read_file touches_only_Image_open : frame.

Lemma with_suffix_below (out_dir sub : Path) (n s : str) (p : Path) :
  with_suffix (joinpath (joinpath out_dir sub) [n]) s = Ok p -> around out_dir p.
Proof.
  intros H. apply with_suffix_Ok in H. subst p. rewrite parent_joinpath.
  right. unfold joinpath. rewrite <- app_assoc. apply prefix_app_r. reflexivity.
Qed.

Section FrameFacts.
Context {U : UnicodeData} (E : Env).

Lemma touches_only_tinify_compress_file P i o :
  P o -> touches_only P (tinify_compress_file E i o).
Proof.
  intros Ho. unfold tinify_compress_file.
  destruct (negb (TINIFY_AVAILABLE E)); [auto with frame|].
  cbv zeta. destruct (if negb (key_set (TINIFY_KEY E)) then TINIFY_KEY E else TINIFY_KEY E)
    as [[|c key]|]; auto with frame.
  apply touches_only_bind; [auto with frame|]. intros upload.
  apply touches_only_bind; [auto with frame|]. intros source.
  apply touches_only_write_file. exact Ho.
Qed.

Lemma touches_only_save_formats_from_image (P : Path -> Prop) img base q :
  (forall s p, with_suffix base s = Ok p -> P p) ->
  touches_only P (save_formats_from_image E img base q).
Proof.
  intros HP. unfold save_formats_from_image, Image_save. cbv zeta.
  apply touches_only_bind_lift. intros jpg Hjpg.
  apply touches_only_bind; [apply touches_only_write_file; eauto|]. intros _.
  apply touches_only_bind_lift. intros webp Hwebp.
  apply touches_only_bind; [apply touches_only_write_file; eauto|]. intros _.
  destruct (AVIF_SUPPORTED E); [|auto with frame].
  apply touches_only_bind_lift. intros avif Havif.
  apply touches_only_bind; [apply touches_only_write_file; eauto|]. intros _.
  auto with frame.
Qed.

Lemma touches_only_process_one src out_dir rel nr tp q ks :
  touches_only (around out_dir) (process_one E src rel out_dir nr tp q ks).
Proof.
  unfold process_one. apply touches_only_try_except; [|auto with frame].
  unfold process_one_try. cbv zeta.
  apply touches_only_bind.
  { apply touches_only_bind; [auto with frame|]. intros im.
    apply touches_only_bind; auto with frame. }
  intros [orientation img_resized].
  apply touches_only_bind; [apply touches_only_ensure_dir|]. intros _.
  apply touches_only_bind; [|auto with frame].
  destruct tp.
  - apply touches_only_bind_lift. intros tmp Htmp.
    apply with_suffix_below in Htmp.
    apply touches_only_bind; [apply touches_only_write_file; exact Htmp|]. intros _.
    apply touches_only_bind_lift. intros comp Hcomp.
    apply with_suffix_below in Hcomp.
    apply touches_only_bind; [apply touches_only_tinify_compress_file; exact Hcomp|].
    intros _.
    apply touches_only_bind; [apply touches_only_unlink; exact Htmp|]. intros _.
    apply touches_only_bind.
    + apply touches_only_bind; [auto with frame|]. intros cim.
      apply touches_only_save_formats_from_image. intros s p. apply with_suffix_below.
    + intros written.
      apply touches_only_bind; [apply touches_only_unlink; exact Hcomp|]. intros _.
      auto with frame.
  - apply touches_only_save_formats_from_image. intros s p. apply with_suffix_below.
Qed.

Lemma touches_only_iter_images P d r : touches_only P (iter_images d r).
Proof.
  apply touches_only_pure. intros w. rewrite iter_images_value. reflexivity.
Qed.

Lemma touches_only_main (args : Args) :
  touches_only (around (out args)) (main E args).
Proof.
  unfold main. cbv zeta.
  apply touches_only_bind.
  { pose proof (touches_only_ensure_dir (out args) []) as H.
    unfold joinpath in H. rewrite app_nil_r in H. exact H. }
  intros _.
  assert (Hrest : touches_only (around (out args)) (after_checks E args)).
  { unfold after_checks.
    apply touches_only_bind; [auto with frame|]. intros found.
    destruct (negb found).
    - apply touches_only_bind; auto with frame.
    - apply touches_only_bind; [destruct (negb (AVIF_SUPPORTED E)); auto with frame|].
      intros _. apply touches_only_bind; [apply touches_only_iter_images|].
      intros files. destruct (is_empty files).
      + apply touches_only_bind; auto with frame.
      + apply touches_only_bind; [|auto with frame].
        apply touches_only_for_each. intros src. unfold loop_body.
        apply touches_only_bind; [auto with frame|]. intros rel.
        apply touches_only_process_one. }
  unfold after_checks, loop_body in Hrest.
  destruct (tinypng args && negb (TINIFY_AVAILABLE E)).
  - apply touches_only_bind; auto with frame.
  - destruct (tinypng args); [|exact Hrest].
    destruct (negb (key_set (TINIFY_KEY E))); [|exact Hrest].
    cbv zeta.
    do 3 (apply touches_only_bind; [solve [auto with frame]|]; intros _).
    apply touches_only_bind; [solve [auto with frame]|]. intros env_exists.
    apply touches_only_bind; [|unfold sys_exit; auto with frame].
    destruct env_exists; [apply touches_only_bind|]; auto with frame.
Qed.


End FrameFacts.


(** ** Without [--tinypng] *)

Section Offline.
Context {U : UnicodeData}.

(** X18. Without [--tinypng] the tinify library, the key and the remote
    service play no part: two environments that agree on AVIF support
    give the same run. *)
Theorem run_without_tinypng (E E' : Env) (args : Args) (w : World) :
  tinypng args = false ->
  AVIF_SUPPORTED E = AVIF_SUPPORTED E' ->
  run E args w = run E' args w.
Proof.
  intros Htp Havif.
  unfold run, main, process_one, process_one_try, save_formats_from_image.
  rewrite Htp. cbn [andb]. cbv beta iota zeta. rewrite Havif. reflexivity.
Qed.

End Offline.

Lemma run_without_tinypng_witness :
  let args := Scenario.args [lit "in"] [lit "out"] false false in
  run (U := Latin1.unicodedata) Scenario2.with_avif args Scenario.batch
  = run (U := Latin1.unicodedata) Scenario2.refusing args Scenario.batch.
Proof.
  intros args.
  apply (run_without_tinypng (U := Latin1.unicodedata) Scenario2.with_avif
           Scenario2.refusing args Scenario.batch); reflexivity.
Defined.

(** ** Directories stay *)

Lemma keeps_dirs_bind {A B} (m : M A) (k : A -> M B) :
  keeps_dirs m -> (forall a, keeps_dirs (k a)) -> keeps_dirs (bind m k).
Proof.
  intros Hm Hk w p Hp. unfold bind. specialize (Hm w p Hp).
  destruct (m w) as [[a|e] w1]; cbn [snd] in *; [|exact Hm].
  exact (Hk a w1 p Hm).
Qed.

Lemma keeps_dirs_pure {A} (m : M A) : (forall w, snd (m w) = w) -> keeps_dirs m.
Proof. intros H w p Hp. rewrite H. exact Hp. Qed.

Lemma keeps_dirs_streams {A} (m : M A) :
  (forall w, fs (snd (m w)) = fs w) -> keeps_dirs m.
Proof. intros H w p Hp. rewrite H. exact Hp. Qed.

Lemma keeps_dirs_ret {A} (a : A) : keeps_dirs (ret a).
Proof. apply keeps_dirs_pure. reflexivity. Qed.

Lemma keeps_dirs_raise {A} e : keeps_dirs (@raise A e).
Proof. apply keeps_dirs_pure. reflexivity. Qed.

Lemma keeps_dirs_lift {A} (r : result A) : keeps_dirs (lift r).
Proof. apply keeps_dirs_pure. reflexivity. Qed.

Lemma keeps_dirs_print l : keeps_dirs (print l).
Proof. apply keeps_dirs_streams. reflexivity. Qed.

Lemma keeps_dirs_eprint l : keeps_dirs (eprint l).
Proof. apply keeps_dirs_streams. reflexivity. Qed.

Lemma keeps_dirs_exists p : keeps_dirs (exists_ p).
Proof. apply keeps_dirs_pure. reflexivity. Qed.

Lemma keeps_dirs_read_file p : keeps_dirs (read_file p).
Proof.
  apply keeps_dirs_pure. intros w. destruct (read_file p w) as [r w'] eqn:H.
  exact (read_file_world _ _ _ _ H).
Qed.

Lemma keeps_dirs_Image_open p : keeps_dirs (Image_open p).
Proof.
  apply keeps_dirs_pure. intros w. destruct (Image_open p w) as [r w'] eqn:H.
  exact (Image_open_world _ _ _ _ H).
Qed.

Lemma stat_Dir (w : World) (p : Path) : fs w !! p = Some Dir -> stat w p = Some Dir.
Proof. intros H. destruct p; [reflexivity | exact H]. Qed.

Lemma keeps_dirs_write_file q d : keeps_dirs (write_file q d).
Proof.
  intros w p Hp. unfold write_file.
  destruct (stat w q) as [[|d0]|] eqn:Hq; cbn [snd]; try exact Hp;
    (destruct (stat w (parent q)) as [[|d1]|]; cbn [snd fs set_fs]; try exact Hp;
     destruct (decide (q = p)) as [->|Hne];
     [apply stat_Dir in Hp; congruence | rewrite lookup_insert_ne by exact Hne; exact Hp]).
Qed.

Lemma keeps_dirs_unlink q b : keeps_dirs (unlink q b).
Proof.
  intros w p Hp. unfold unlink.
  destruct (stat w q) as [[|d0]|] eqn:Hq; cbn [snd fs set_fs]; try exact Hp.
  - destruct (decide (q = p)) as [->|Hne];
      [apply stat_Dir in Hp; congruence | rewrite lookup_delete_ne by exact Hne; exact Hp].
  - destruct b; exact Hp.
Qed.

Lemma keeps_dirs_os_mkdir q : keeps_dirs (os_mkdir q).
Proof.
  intros w p Hp. unfold os_mkdir.
  destruct (stat w q) as [n|] eqn:Hq; cbn [snd]; [exact Hp|].
  destruct (stat w (parent q)) as [[|d1]|]; cbn [snd fs set_fs]; try exact Hp.
  destruct (decide (q = p)) as [->|Hne];
    [apply lookup_insert_eq | rewrite lookup_insert_ne by exact Hne; exact Hp].
Qed.

Lemma keeps_dirs_mkdir_exist_ok q : keeps_dirs (mkdir_exist_ok q).
Proof.
  intros w p Hp. unfold mkdir_exist_ok. pose proof (keeps_dirs_os_mkdir q w p Hp) as H.
  destruct (os_mkdir q w) as [[[]|e] w1]; cbn [snd] in *; [exact H|].
  destruct e; try exact H; destruct (is_dir w1 q); exact H.
Qed.

Lemma keeps_dirs_mkdir_parents rp : keeps_dirs (mkdir_parents rp).
Proof.
  induction rp as [|x rp IH]; intros w p Hp; cbn [mkdir_parents];
    [pose proof (keeps_dirs_os_mkdir (rev []) w p Hp) as H0
    |pose proof (keeps_dirs_os_mkdir (rev (x :: rp)) w p Hp) as H1].
  - destruct (os_mkdir (rev []) w) as [[[]|e] w1]; cbn [snd] in *; [exact H0|].
    destruct e; try exact H0; destruct (is_dir w1 (rev [])); exact H0.
  - destruct (os_mkdir (rev (x :: rp)) w) as [[[]|e] w1]; cbn [snd] in *; [exact H1|].
    destruct e; try (destruct (is_dir w1 (rev (x :: rp))); exact H1).
    exact (keeps_dirs_bind _ _ IH (fun _ => keeps_dirs_mkdir_exist_ok _) w1 p H1).
Qed.

Lemma keeps_dirs_ensure_dir q : keeps_dirs (ensure_dir q).
Proof. unfold ensure_dir, mkdir. apply keeps_dirs_mkdir_parents. Qed.

Lemma keeps_dirs_Image_save img q s : keeps_dirs (Image_save img q s).
Proof. unfold Image_save. apply keeps_dirs_write_file. Qed.

Lemma keeps_dirs_try_except {A} (body : M A) handler :
  keeps_dirs body -> (forall e, keeps_dirs (handler e)) ->
  keeps_dirs (try_except body handler).
Proof.
  intros Hb Hh w p Hp. unfold try_except. specialize (Hb w p Hp).
  destruct (body w) as [[a|e] w1]; cbn [snd] in *; [exact Hb|].
  exact (Hh e w1 p Hb).
Qed.

Lemma keeps_dirs_for_each {A} (body : A -> M unit) (l : list A) :
  (forall a, keeps_dirs (body a)) -> keeps_dirs (for_each body l).
Proof.
  intros Hb. induction l as [|a l IH]; cbn [for_each].
  - apply keeps_dirs_ret.
  - apply keeps_dirs_bind; [apply Hb | intros _; exact IH].
Qed.

Create HintDb dirs.

#[local] Hint Resolve keeps_dirs_ret keeps_dirs_raise keeps_dirs_lift keeps_dirs_print
  keeps_dirs_eprint keeps_dirs_exists keeps_dirs_read_file keeps_dirs_Image_open
  keeps_dirs_write_file keeps_dirs_unlink
  keeps_dirs_ensure_dir keeps_dirs_Image_save : dirs.

Section Directories.
Context {U : UnicodeData} (E : Env).

Lemma keeps_dirs_iter_images d r : keeps_dirs (iter_images d r).
Proof. apply keeps_dirs_pure. intros w. rewrite iter_images_value. reflexivity. Qed.

Ltac dirs_steps :=
  repeat first
    [ solve [auto with dirs]
    | progress cbv zeta
    | apply keeps_dirs_bind; [|intros ?]
    | apply keeps_dirs_try_except; [|intros ?]
    | apply keeps_dirs_for_each; intros ?
    | apply keeps_dirs_iter_images
    | match goal with |- keeps_dirs (if ?b then _ else _) => destruct b end
    | match goal with |- keeps_dirs (match ?x with _ => _ end) => destruct x end ].

Lemma keeps_dirs_main (args : Args) : keeps_dirs (main E args).
Proof.
  unfold main, process_one, process_one_try, save_formats_from_image,
    tinify_compress_file, sys_exit.
  dirs_steps.
Qed.

Lemma keeps_dirs_is_dir {A} (m : M A) (w : World) (p : Path) :
  keeps_dirs m -> is_dir w p = true -> is_dir (snd (m w)) p = true.
Proof.
  intros Hm. unfold is_dir. destruct p as [|x p]; [intros _; reflexivity|]. cbn [stat].
  intros Hd.
  assert (Hp : fs w !! (x :: p) = Some Dir).
  { match type of Hd with context [match ?t with _ => _ end] =>
      destruct t as [[|d]|] eqn:Ht end; [exact Ht|discriminate|discriminate]. }
  pose proof (Hm w (x :: p) Hp) as H.
  match goal with |- match ?t with _ => _ end = true =>
    assert (Ht : t = Some Dir) by exact H; rewrite Ht; reflexivity end.
Qed.

Lemma keeps_dirs_after_checks (args : Args) : keeps_dirs (after_checks E args).
Proof.
  unfold after_checks, loop_body, process_one, process_one_try,
    save_formats_from_image, tinify_compress_file, sys_exit.
  dirs_steps.
Qed.

(** X19. A run removes or replaces no directory: what was a directory
    before is one afterwards, whatever the arguments and however the run
    ends. *)
Theorem run_keeps_directories (args : Args) (w : World) (p : Path) :
  is_dir w p = true -> is_dir (snd (run E args w)) p = true.
Proof.
  intros Hd. pose proof (keeps_dirs_is_dir _ w p (keeps_dirs_main args) Hd) as H.
  unfold run. destruct (main E args w) as [[code|e] w1]; exact H.
Qed.


End Directories.

Lemma run_keeps_directories_witness :
  is_dir (snd (run (U := Latin1.unicodedata) Scenario.env
                 (Scenario.args [lit "in"] [lit "in"] false false) Scenario.batch))
    [lit "in"] = true.
Proof.
  apply (run_keeps_directories (U := Latin1.unicodedata) Scenario.env
           (Scenario.args [lit "in"] [lit "in"] false false) Scenario.batch
           [lit "in"]).
  vm_compute. reflexivity.
Defined.
